(** * vite-mode-logging: the build-time call rewriter and the mode registry

    A shallow embedding of [src/templates/debug.ts]'s plugin code
    ([ensureModeFunction] and [modeBasedLoggingPlugin]) together with the
    fragment of ECMAScript it runs on: strings of UTF-16 code units, the
    backtracking regular expressions the plugin writes down, and
    [String.prototype.replace]. *)

From Stdlib Require Import String Ascii List NArith Arith Bool Lia.
Import ListNotations.

Set Implicit Arguments.

(** ** Strings *)

(** A JavaScript string is a sequence of UTF-16 code units. *)
Definition jsstring := list N.

(** The code units of an ASCII literal. *)
Definition js (s : string) : jsstring :=
  map N_of_ascii (list_ascii_of_string s).

(** A double-quoted literal as it appears in program text. *)
Definition quoted (s : string) : jsstring := [34%N] ++ js s ++ [34%N].

Definition LF : jsstring := [10%N].

Fixpoint str_eqb (a b : jsstring) : bool :=
  match a, b with
  | [], [] => true
  | x :: a', y :: b' => N.eqb x y && str_eqb a' b'
  | _, _ => false
  end.

Fixpoint startsWith (p s : jsstring) : bool :=
  match p, s with
  | [], _ => true
  | x :: p', y :: s' => N.eqb x y && startsWith p' s'
  | _ :: _, [] => false
  end.

(** [s.includes(sub)] *)
Fixpoint includes (s sub : jsstring) : bool :=
  startsWith sub s ||
  match s with
  | [] => false
  | _ :: s' => includes s' sub
  end.

(** [s.lastIndexOf(sub)], with [None] for [-1]. *)
Fixpoint lastIndexFrom (i : nat) (s sub : jsstring) (found : option nat)
  : option nat :=
  let found' := if startsWith sub s then Some i else found in
  match s with
  | [] => found'
  | _ :: s' => lastIndexFrom (S i) s' sub found'
  end.

Definition lastIndexOf (s sub : jsstring) : option nat :=
  lastIndexFrom 0 s sub None.

(** [s.slice(0, i)] and [s.slice(i)] for [0 <= i <= s.length]. *)
Definition slice_to (i : nat) (s : jsstring) : jsstring := firstn i s.
Definition slice_from (i : nat) (s : jsstring) : jsstring := skipn i s.

(** ** Character classes *)

Definition between (lo hi c : N) : bool := N.leb lo c && N.leb c hi.
Definition only (k c : N) : bool := N.eqb c k.
Definition except (k c : N) : bool := negb (N.eqb c k).

Definition isUpper : N -> bool := between 65 90.
Definition isLower : N -> bool := between 97 122.
Definition isDigit : N -> bool := between 48 57.
Definition isAscii (c : N) : bool := N.ltb c 128.

(** [[A-Z0-9_]] *)
Definition isNameChar (c : N) : bool := isUpper c || isDigit c || only 95 c.

(** The word characters [\b] looks at: [[A-Za-z0-9_]]. *)
Definition isWordChar (c : N) : bool :=
  isUpper c || isLower c || isDigit c || only 95 c.

(** [\s]: WhiteSpace and LineTerminator code points. *)
Definition isSpace (c : N) : bool :=
  between 9 13 c || only 32 c || only 160 c || only 5760 c ||
  between 8192 8202 c || only 8232 c || only 8233 c || only 8239 c ||
  only 8287 c || only 12288 c || only 65279 c.

(** The class "[^)(]". *)
Definition notParen (c : N) : bool := except 41 c && except 40 c.

(** Upper-casing of one ASCII code unit. *)
Definition upperA (c : N) : N := if isLower c then (c - 32)%N else c.

(** A pattern character under the [i] flag, for an ASCII pattern character
    [p]: Canonicalize never maps a code unit of 128 or more to one below 128,
    so only ASCII input can match, and it matches up to ASCII case. *)
Definition sameLetter (p c : N) : bool :=
  isAscii c && N.eqb (upperA c) (upperA p).

(** ** Regular expressions *)

Module RegExp.

Inductive re : Type :=
| Eps
| Chr (p : N -> bool)
| Seq (a b : re)
| Alt (a b : re)
| Star (a : re)
| Group (n : nat) (a : re)
| WordB
| Eoi.

Definition Plus (a : re) : re := Seq a (Star a).
Definition Opt (a : re) : re := Alt a Eps.

Fixpoint lit (s : jsstring) : re :=
  match s with
  | [] => Eps
  | c :: s' => Seq (Chr (only c)) (lit s')
  end.

Fixpoint lit_i (s : jsstring) : re :=
  match s with
  | [] => Eps
  | c :: s' => Seq (Chr (sameLetter c)) (lit_i s')
  end.

(** The matcher's position: the text behind it (nearest first), the text
    ahead, and the captures made so far (latest first). *)
Record cursor : Type := Cursor {
  seen : list N;
  rest : list N;
  caps : list (nat * jsstring)
}.

(** The text the matcher went over between [c] and a later cursor [e]. *)
Definition covered (c e : cursor) : jsstring :=
  rev (firstn (length (seen e) - length (seen c)) (seen e)).

Definition capture (n : nat) (c e : cursor) : cursor :=
  Cursor (seen e) (rest e) ((n, covered c e) :: caps e).

Definition wordBehind (c : cursor) : bool :=
  match seen c with x :: _ => isWordChar x | [] => false end.

Definition wordAhead (c : cursor) : bool :=
  match rest c with x :: _ => isWordChar x | [] => false end.

Definition atBoundary (c : cursor) : bool := xorb (wordBehind c) (wordAhead c).

(** Greedy iteration: one more round first, stopping here last; a round that
    consumes nothing is rejected.  Every round shortens [rest], so
    [length (rest c)] rounds of fuel are never used up. *)
Fixpoint star_iter (f : cursor -> list cursor) (fuel : nat) (c : cursor)
  : list cursor :=
  match fuel with
  | O => [c]
  | S n =>
      flat_map
        (fun c' =>
           if length (rest c') <? length (rest c)
           then star_iter f n c' else [])
        (f c) ++ [c]
  end.

(** All the ways [r] matches from [c], in the order a backtracking matcher
    tries them; the matcher takes the first that lets the rest succeed. *)
Fixpoint run (r : re) (c : cursor) : list cursor :=
  match r with
  | Eps => [c]
  | Chr p =>
      match rest c with
      | x :: t => if p x then [Cursor (x :: seen c) t (caps c)] else []
      | [] => []
      end
  | Seq a b => flat_map (run b) (run a c)
  | Alt a b => run a c ++ run b c
  | Star a => star_iter (run a) (length (rest c)) c
  | Group n a => map (capture n c) (run a c)
  | WordB => if atBoundary c then [c] else []
  | Eoi => match rest c with [] => [c] | _ :: _ => [] end
  end.

(** The first position at or after the current one where [r] matches, with
    the match chosen there. *)
Fixpoint search (r : re) (behind ahead : list N) : option (cursor * cursor) :=
  let c := Cursor behind ahead [] in
  match run r c with
  | e :: _ => Some (c, e)
  | [] =>
      match ahead with
      | [] => None
      | x :: t => search r (x :: behind) t
      end
  end.

(** [r.test(s)] *)
Definition test (r : re) (s : jsstring) : bool :=
  match search r [] s with Some _ => true | None => false end.

(** A match result: the matched text and its groups. *)
Record hit : Type := Hit {
  whole : jsstring;
  groups : list (nat * jsstring)
}.

Fixpoint group (n : nat) (gs : list (nat * jsstring)) : jsstring :=
  match gs with
  | [] => []
  | (k, t) :: gs' => if Nat.eqb k n then t else group n gs'
  end.

Definition hit_of (c e : cursor) : hit := Hit (covered c e) (caps e).

(** The input cut at the matches of a global regular expression. *)
Inductive segment : Type :=
| Kept (t : jsstring)
| Found (h : hit).

Definition source (g : segment) : jsstring :=
  match g with Kept t => t | Found h => whole h end.

(** The match loop of [s.replace(r, ...)] for a global [r]: every match is
    sought in the original text, from where the previous one ended (one
    further on after an empty match). *)
Fixpoint scan (fuel : nat) (r : re) (behind ahead : list N) : list segment :=
  match search r behind ahead with
  | None => [Kept ahead]
  | Some (c, e) =>
      Kept (covered (Cursor behind ahead []) c) :: Found (hit_of c e) ::
      match fuel with
      | O => []
      | S n =>
          if length (rest e) <? length (rest c)
          then scan n r (seen e) (rest e)
          else match rest e with
               | [] => []
               | x :: t => Kept [x] :: scan n r (x :: seen e) t
               end
      end
  end.

Definition segments (r : re) (s : jsstring) : list segment :=
  scan (length s) r [] s.

Definition render (f : hit -> jsstring) (g : segment) : jsstring :=
  match g with Kept t => t | Found h => f h end.

(** [s.replace(r, f)] for a global [r] and a callback [f]. *)
Definition replaceAll (r : re) (f : hit -> jsstring) (s : jsstring)
  : jsstring :=
  concat (map (render f) (segments r s)).

(** A replacement string cut at its [$n] references. *)
Inductive piece : Type :=
| Txt (t : jsstring)
| Ref (n : nat).

Definition expand (tpl : list piece) (h : hit) : jsstring :=
  concat (map (fun p => match p with
                        | Txt t => t
                        | Ref n => group n (groups h)
                        end) tpl).

(** [s.replace(r, tpl)] for a regular expression without the [g] flag: the
    first match only. *)
Definition replaceFirst (r : re) (tpl : list piece) (s : jsstring)
  : jsstring :=
  match search r [] s with
  | None => s
  | Some (c, e) => rev (seen c) ++ expand tpl (hit_of c e) ++ rest e
  end.

End RegExp.

Import RegExp.

Infix "+++" := Seq (at level 61, right associativity).

(** ** The plugin's regular expressions *)

(** The pattern "/\.(tsx?|jsx?)$/". *)
Definition sourceFileRegex : re :=
  Chr (only 46) +++
  Group 1 (Alt (lit (js "ts") +++ Opt (Chr (only 120)))
               (lit (js "js") +++ Opt (Chr (only 120)))) +++
  Eoi.

(** The global pattern, its pieces spaced out:
    \b ( [A-Z] [A-Z0-9_]* ) \s* \( ( (?: [^)(] | \( [^)]* \) )* ) \) *)
Definition allModesRegex : re :=
  WordB +++
  Group 1 (Chr isUpper +++ Star (Chr isNameChar)) +++
  Star (Chr isSpace) +++
  Chr (only 40) +++
  Group 2 (Star (Alt (Chr notParen)
                     (Chr (only 40) +++ Star (Chr (except 41)) +++ Chr (only 41)))) +++
  Chr (only 41).

(** ** The call rewriter *)

Definition ALL : jsstring := js "ALL".

Definition consoleLog (args : jsstring) : jsstring :=
  js "console.log(" ++ args ++ js ")".

(** The callback handed to [code.replace]. *)
Definition replacer (currentModeUpper modeName args : jsstring) : jsstring :=
  if str_eqb modeName ALL then consoleLog args
  else if str_eqb modeName currentModeUpper then consoleLog args
  else [].

Definition modeName (h : hit) : jsstring := group 1 (groups h).
Definition args (h : hit) : jsstring := group 2 (groups h).

(** ** The declarations artifact and the file system around it *)

Definition line (s : string) : jsstring := js s ++ LF.

(** The content [ensureModeFunction] starts from when [src/debug.ts] cannot
    be read. *)
Definition defaultContent : jsstring :=
  line "// Mode-based logging helper functions that will be transformed by the build process" ++
  line "// These functions are declared globally and can be used anywhere without imports" ++
  line "" ++
  line "declare global {" ++
  line "  function ALL(message: string): void;" ++
  line "}" ++
  line "" ++
  line "// Make the functions available at runtime (though they'll be transformed)" ++
  line "(globalThis as any).ALL = function(_message: string) { /* no-op */ };" ++
  line "" ++
  line "export {}; // Make this a module".

(** The declaration line put into the [declare global] block. *)
Definition declLine (functionName : jsstring) : jsstring :=
  js "  function " ++ functionName ++ js "(message: string): void;" ++ LF.

Definition newGlobalBlock (functionName : jsstring) : jsstring :=
  LF ++ line "declare global {" ++ declLine functionName ++ line "}".

(** The runtime stub. *)
Definition runtimeImpl (functionName : jsstring) : jsstring :=
  js "(globalThis as any)." ++ functionName ++
  js " = function(_message: string) { /* no-op */ };" ++ LF.

Definition exportMarker : jsstring := js "export {};".

(** The characters with a meaning of their own in a pattern: one of
    ^ $ \ . * + ? ( ) [ ] { } | *)
Definition isSyntaxChar (c : N) : bool :=
  existsb (N.eqb c) (js "^$\.*+?()[]{}|").

(** A name made of these reads, spliced into a pattern, as the name itself
    (up to ASCII case under the [i] flag), and holds no [$] for a
    replacement string to expand. *)
Definition plainChar (c : N) : bool := isAscii c && negb (isSyntaxChar c).

(** [new RegExp(`function\\s+${functionName}\\s*\\(`, 'i')], for a
    [functionName] of plain characters. *)
Definition globalDeclRegex (functionName : jsstring) : re :=
  lit_i (js "function") +++ Plus (Chr isSpace) +++ lit_i functionName +++
  Star (Chr isSpace) +++ Chr (only 40).

(** The pattern, spaced out: ( declare global \{ [^}]* ) ( } ), with the [s] flag. *)
Definition globalBlockRegex : re :=
  Group 1 (lit (js "declare global {") +++ Star (Chr (except 125))) +++
  Group 2 (Chr (only 125)).

(** The pattern "/function\s+ALL\s*\(/i". *)
Definition allGlobalRegex : re :=
  lit_i (js "function") +++ Plus (Chr isSpace) +++ lit_i (js "ALL") +++
  Star (Chr isSpace) +++ Chr (only 40).

(** What the plugin can see and change outside itself: the artifact
    [src/debug.ts] ([None] when it cannot be read), whether it can be
    written, every [writeFileSync] made (latest first) and the console
    (latest first). *)
Record world : Type := World {
  file : option jsstring;
  writable : bool;
  writes : list jsstring;
  console : list jsstring
}.

Inductive error : Type :=
| ReadFailed
| WriteFailed.

(** How a call ends.  [Beyond] marks a mode name the embedding does not
    cover: one whose upper-cased form has a character outside [plainChar],
    which [new RegExp] and the replacement string would interpret.  The
    code goes on there, [new RegExp] throwing a SyntaxError or the test
    reading the name as a pattern; the facts about [ensureModeFunction] are
    facts about names of plain characters. *)
Inductive outcome (A : Type) : Type :=
| Returned (a : A)
| Thrown (e : error)
| Beyond.

Arguments Thrown {A} e.
Arguments Beyond {A}.

Definition IO (A : Type) : Type := world -> outcome A * world.

Definition ret {A} (a : A) : IO A := fun w => (Returned a, w).

Definition bind {A B} (m : IO A) (k : A -> IO B) : IO B :=
  fun w =>
    match m w with
    | (Returned a, w') => k a w'
    | (Thrown e, w') => (Thrown e, w')
    | (Beyond, w') => (Beyond, w')
    end.

Definition catch {A} (m : IO A) (h : error -> IO A) : IO A :=
  fun w =>
    match m w with
    | (Thrown e, w') => h e w'
    | r => r
    end.

Definition beyond {A} : IO A := fun w => (Beyond, w).

Notation "x <- m ;; k" := (bind m (fun x => k))
  (at level 100, m at next level, right associativity).
Notation "m ;; k" := (bind m (fun _ => k))
  (at level 100, right associativity).

Definition readFileSync : IO jsstring :=
  fun w =>
    match file w with
    | Some content => (Returned content, w)
    | None => (Thrown ReadFailed, w)
    end.

Definition writeFileSync (content : jsstring) : IO unit :=
  fun w =>
    if writable w
    then (Returned tt,
          World (Some content) true (content :: writes w) (console w))
    else (Thrown WriteFailed, w).

Definition console_log (msg : jsstring) : IO unit :=
  fun w =>
    (Returned tt, World (file w) (writable w) (writes w) (msg :: console w)).

(** The call sites of [code]: the text cut at the matches of the call
    pattern, in the order [replace] finds them. *)
Definition callSites (code : jsstring) : list segment :=
  segments allModesRegex code.

(** The text [replace] puts together from the pieces, each match handed to
    the callback. *)
Definition rendered (currentModeUpper : jsstring) (segs : list segment)
  : jsstring :=
  concat (map (render (fun h => replacer currentModeUpper (modeName h) (args h)))
              segs).

Section Plugin.

(** [String.prototype.toUpperCase].  The Unicode case tables are left
    abstract; the facts below rely on their ASCII part alone, which maps a
    text of ASCII characters to [map upperA] of it. *)
Variable toUpperCase : jsstring -> jsstring.

(** [code.replace(allModesRegex, ...)] under plugin mode [mode]. *)
Definition rewrite (mode code : jsstring) : jsstring :=
  let currentModeUpper := toUpperCase mode in
  replaceAll allModesRegex
    (fun h => replacer currentModeUpper (modeName h) (args h)) code.

Definition changed (mode code : jsstring) : bool :=
  negb (str_eqb (rewrite mode code) code).

(** The [transform] hook: [None] is the hook returning nothing (the file is
    left as it is), [Some t] is [{ code: t, map: null }]. *)
Definition transform (mode code id : jsstring) : option jsstring :=
  if negb (test sourceFileRegex id) then None
  else if includes id (js "debug.ts") then None
  else
    let transformed := rewrite mode code in
    if negb (str_eqb transformed code) then Some transformed else None.

(** Puts [stub] before the last [export {};], when there is one. *)
Definition insertStub (stub : jsstring) (orElse : jsstring -> jsstring)
    (content : jsstring) : jsstring :=
  match lastIndexOf content exportMarker with
  | Some exportIndex =>
      slice_to exportIndex content ++ stub ++ slice_from exportIndex content
  | None => orElse content
  end.

Definition ensureModeFunction (mode : jsstring) : IO unit :=
  content <- catch readFileSync (fun _ => ret defaultContent) ;;
  let functionName := toUpperCase mode in
  if negb (forallb plainChar functionName) then beyond else
  content <-
    (if negb (test (globalDeclRegex functionName) content) then
       let content :=
         if test globalBlockRegex content
         then replaceFirst globalBlockRegex
                [Ref 1; Txt (declLine functionName); Ref 2] content
         else newGlobalBlock functionName ++ content in
       let content :=
         insertStub (runtimeImpl functionName)
           (fun content =>
              content ++ runtimeImpl functionName ++ LF ++ line "export {};")
           content in
       writeFileSync content ;;
       console_log (js "Added " ++ functionName ++
                    js " global function to debug.ts") ;;
       ret content
     else ret content) ;;
  if negb (test allGlobalRegex content) then
    content <- readFileSync ;;
    let content :=
      if test globalBlockRegex content
      then replaceFirst globalBlockRegex
             [Ref 1; Txt (declLine ALL); Ref 2] content
      else content in
    let content := insertStub (runtimeImpl ALL) (fun content => content) content in
    writeFileSync content ;;
    console_log (js "Added ALL global function to debug.ts")
  else ret tt.

(** A run of registrations, one call after the other. *)
Fixpoint registerAll (modes : list jsstring) : IO unit :=
  match modes with
  | [] => ret tt
  | mode :: modes' => ensureModeFunction mode ;; registerAll modes'
  end.

(** The plugin constructor: the registry is brought up to date, then the
    [transform] hook for [mode] is handed out. *)
Definition modeBasedLoggingPlugin (mode : jsstring)
  : IO (jsstring -> jsstring -> option jsstring) :=
  ensureModeFunction mode ;;
  ret (transform mode).

End Plugin.

(** Upper-casing of ASCII text, letter by letter: an instance of
    [toUpperCase] to run the plugin with. *)
Definition asciiUpperCase (s : jsstring) : jsstring := map upperA s.

(** ** What a match is

    [Matches r c e]: the pattern [r] can take the matcher from [c] to [e].
    [run] enumerates exactly these [e] (see [run_sound], [run_complete]). *)
Inductive Matches : re -> cursor -> cursor -> Prop :=
| M_Eps c : Matches Eps c c
| M_Chr (p : N -> bool) x behind ahead cp :
    p x = true ->
    Matches (Chr p) (Cursor behind (x :: ahead) cp) (Cursor (x :: behind) ahead cp)
| M_Seq a b c d e : Matches a c d -> Matches b d e -> Matches (Seq a b) c e
| M_AltL a b c e : Matches a c e -> Matches (Alt a b) c e
| M_AltR a b c e : Matches b c e -> Matches (Alt a b) c e
| M_StarStop a c : Matches (Star a) c c
| M_StarStep a c d e :
    Matches a c d -> length (rest d) < length (rest c) ->
    Matches (Star a) d e -> Matches (Star a) c e
| M_Group n a c e : Matches a c e -> Matches (Group n a) c (capture n c e)
| M_WordB c : atBoundary c = true -> Matches WordB c c
| M_Eoi c : rest c = [] -> Matches Eoi c c.

(** [e] lies [w] further on than [c] in the same text. *)
Definition ahead_by (w : jsstring) (c e : cursor) : Prop :=
  rest c = w ++ rest e /\ seen e = rev w ++ seen c.

(** No capture group inside. *)
Fixpoint groupless (r : re) : bool :=
  match r with
  | Eps | Chr _ | WordB | Eoi => true
  | Seq a b | Alt a b => groupless a && groupless b
  | Star a => groupless a
  | Group _ _ => false
  end.

(** ** Call sites *)

(** The Mode Name pattern of a call site: [[A-Z][A-Z0-9_]*]. *)
Definition isModeName (name : jsstring) : bool :=
  match name with
  | c :: t => isUpper c && forallb isNameChar t
  | [] => false
  end.

(** The text a list of pieces was cut from. *)
Definition sources (segs : list segment) : jsstring :=
  concat (map source segs).

(** The form of a call site between two cursors: a Mode Name that starts at
    a word boundary, white space, and the argument text in parentheses. *)
Definition callSite (name ws body : jsstring) (c e : cursor) : Prop :=
  ahead_by (name ++ ws ++ [40%N] ++ body ++ [41%N]) c e /\
  caps e = (2, body) :: (1, name) :: caps c /\
  isModeName name = true /\
  forallb isSpace ws = true /\
  wordBehind c = false.

(** A Mode Name directly followed by an opening parenthesis, somewhere in
    [s]. *)
Definition adjacentCallPattern (s : jsstring) : Prop :=
  exists pre name post,
    isModeName name = true /\ s = pre ++ name ++ [40%N] ++ post.

(** A Mode Name followed, after any white space, by an opening parenthesis. *)
Definition spacedCallPattern (s : jsstring) : Prop :=
  exists pre name ws post,
    isModeName name = true /\ forallb isSpace ws = true /\
    s = pre ++ name ++ ws ++ [40%N] ++ post.

(** The argument text of a call site: characters other than parentheses,
    and runs in parentheses that hold no closing parenthesis.  [inner] is
    set between the opening parenthesis of such a run and the closing
    parenthesis that ends it. *)
Fixpoint isArgText (inner : bool) (s : jsstring) : bool :=
  match s with
  | [] => negb inner
  | c :: t =>
      if inner then isArgText (negb (N.eqb c 41)) t
      else if N.eqb c 40 then isArgText true t
      else if N.eqb c 41 then false
      else isArgText false t
  end.

(** The part of the call pattern that takes the argument text. *)
Definition argTextRegex : re :=
  Star (Alt (Chr notParen)
            (Chr (only 40) +++ Star (Chr (except 41)) +++ Chr (only 41))).

(** The text of a call site. *)
Definition callText (name ws body : jsstring) : jsstring :=
  name ++ ws ++ [40%N] ++ body ++ [41%N].

(** Whether the text behind, nearest character first, ends in a word
    character: an ASCII letter, a digit or an underscore. *)
Definition afterWord (behind : jsstring) : bool :=
  match behind with x :: _ => isWordChar x | [] => false end.

(** A call site begins [text], with [behind] the text before it (nearest
    character first): a Mode Name not directly preceded by a word
    character, white space if any, and an argument text in parentheses;
    [rest] is the text after it. *)
Definition callAt (behind text name ws body rest : jsstring) : Prop :=
  text = callText name ws body ++ rest /\
  isModeName name = true /\
  forallb isSpace ws = true /\
  isArgText false body = true /\
  afterWord behind = false.

Definition callBegins (behind text : jsstring) : Prop :=
  exists name ws body rest, callAt behind text name ws body rest.

(** The text cut at its call sites, from left to right: each call site is
    taken at the first place, after the end of the one before, where one
    begins; the text between them and after the last is kept. *)
Inductive Cutting : jsstring -> jsstring -> list segment -> Prop :=
| Cutting_rest behind text :
    (forall p q, text = p ++ q -> ~ callBegins (rev p ++ behind) q) ->
    Cutting behind text [Kept text]
| Cutting_call behind kept name ws body rest segs :
    (forall p q, kept = p ++ q -> q <> [] ->
       ~ callBegins (rev p ++ behind) (q ++ callText name ws body ++ rest)) ->
    callAt (rev kept ++ behind) (callText name ws body ++ rest)
           name ws body rest ->
    Cutting (rev (callText name ws body) ++ rev kept ++ behind) rest segs ->
    Cutting behind (kept ++ callText name ws body ++ rest)
      (Kept kept ::
       Found (Hit (callText name ws body) [(2, body); (1, name)]) :: segs).

(** ** File names *)

Definition supportedExtensions : list jsstring :=
  [js ".ts"; js ".tsx"; js ".js"; js ".jsx"].

Definition hasSupportedExtension (id : jsstring) : Prop :=
  exists pre ext, In ext supportedExtensions /\ id = pre ++ ext.

Definition namesArtifact (id : jsstring) : Prop :=
  exists pre post, id = pre ++ js "debug.ts" ++ post.

(** ** Declarations in the artifact *)

(** The artifact as the registry reads it: the file, or the default content
    when the file cannot be read. *)
Definition artifact (w : world) : jsstring :=
  match file w with
  | Some content => content
  | None => defaultContent
  end.

(** The registry's own test for a declared Mode Name, and the presence of
    its stub line. *)
Definition declared (functionName content : jsstring) : bool :=
  test (globalDeclRegex functionName) content.

Definition stubbed (functionName content : jsstring) : bool :=
  includes content (runtimeImpl functionName).

(** Text equal to an ASCII pattern text up to case. *)
Fixpoint sameText (p w : jsstring) : bool :=
  match p, w with
  | [], [] => true
  | a :: p', c :: w' => sameLetter a c && sameText p' w'
  | _, _ => false
  end.

(** The texts [globalDeclRegex functionName] matches: the word function,
    white space, the name, white space if any, an opening parenthesis. *)
Definition declarationText (functionName w : jsstring) : Prop :=
  exists fn ws1 nm ws2,
    w = fn ++ ws1 ++ nm ++ ws2 ++ [40%N] /\
    sameText (js "function") fn = true /\
    ws1 <> [] /\ forallb isSpace ws1 = true /\
    sameText functionName nm = true /\
    forallb isSpace ws2 = true.

(** The braces, which close the [declare global] block and stand in the
    export marker. *)
Definition isBrace (c : N) : bool := only 123 c || only 125 c.

Definition blockOpening : jsstring := js "declare global {".

(** The content holds the opening of a [declare global] block with a
    closing brace somewhere after it: what [globalBlockRegex] looks for. *)
Definition hasBlock (content : jsstring) : Prop :=
  exists p q, content = p ++ blockOpening ++ q /\ In 125%N q.

(** The content the first step of [ensureModeFunction] writes when
    [functionName] is not declared yet. *)
Definition withMode (functionName content : jsstring) : jsstring :=
  insertStub (runtimeImpl functionName)
    (fun content => content ++ runtimeImpl functionName ++ LF ++ line "export {};")
    (if test globalBlockRegex content
     then replaceFirst globalBlockRegex
            [Ref 1; Txt (declLine functionName); Ref 2] content
     else newGlobalBlock functionName ++ content).

(** The content its second step writes when [ALL] is not declared. *)
Definition withALL (content : jsstring) : jsstring :=
  insertStub (runtimeImpl ALL) (fun content => content)
    (if test globalBlockRegex content
     then replaceFirst globalBlockRegex [Ref 1; Txt (declLine ALL); Ref 2] content
     else content).

(** Two artifacts written by hand, with one declaration and no
    [declare global] block; the second ends in the export marker. *)
Definition bareArtifact : jsstring :=
  line "function DEV(message: string): void;".

Definition bareModule : jsstring :=
  line "function DEV(message: string): void;" ++ line "export {};".

(** ** Project set-up: the mode list and the files it writes *)

(** [list.join(sep)] *)
Fixpoint join (sep : jsstring) (l : list jsstring) : jsstring :=
  match l with
  | [] => []
  | [x] => x
  | x :: l' => x ++ sep ++ join sep l'
  end.

(** [s.split(c)] for a separator of one character. *)
Fixpoint splitOn (c : N) (s : jsstring) : list jsstring :=
  match s with
  | [] => [[]]
  | x :: s' =>
      if N.eqb x c then [] :: splitOn c s'
      else match splitOn c s' with
           | piece :: pieces => (x :: piece) :: pieces
           | [] => [[x]]
           end
  end.

Fixpoint dropSpace (s : jsstring) : jsstring :=
  match s with
  | x :: s' => if isSpace x then dropSpace s' else s
  | [] => []
  end.

(** [s.trim()] *)
Definition trim (s : jsstring) : jsstring :=
  rev (dropSpace (rev (dropSpace s))).

(** [[...new Set(l)]]: the first occurrence of each element, in order. *)
Fixpoint addAll (acc l : list jsstring) : list jsstring :=
  match l with
  | [] => acc
  | x :: l' =>
      addAll (if existsb (str_eqb x) acc then acc else acc ++ [x]) l'
  end.

(** The script names that stand for no mode. *)
Definition excludedScripts : list jsstring :=
  [js "build"; js "preview"; js "test"; js "lint"; js "format"].

(** The files of a project, by their path from the project root; whether
    [src] exists; whether the process may create and write there; what was
    printed with [console.log] and with [console.warn] (latest first). *)
Record project : Type := Project {
  files : jsstring -> option jsstring;
  srcDir : bool;
  permitted : bool;
  logged : list jsstring;
  warned : list jsstring
}.

Inductive failure : Type :=
| CannotMakeDir
| CannotWrite.

Inductive ending : Type :=
| Done
| Failed (f : failure).

Definition debugPath : jsstring := js "src/debug.ts".

Definition writeFile (path content : jsstring) (p : project) : project :=
  Project (fun q => if str_eqb q path then Some content else files p q)
          (srcDir p) (permitted p) (logged p) (warned p).

Definition log (msg : jsstring) (p : project) : project :=
  Project (files p) (srcDir p) (permitted p) (msg :: logged p) (warned p).

Definition warn (msg : jsstring) (p : project) : project :=
  Project (files p) (srcDir p) (permitted p) (logged p) (msg :: warned p).

(** The project as the plugin sees it from the project root. *)
Definition worldOf (p : project) : world :=
  World (files p debugPath) (srcDir p && permitted p) [] (logged p).

(** The lines [createDebugFile] makes for one mode. *)
Definition declarationOf (mode : jsstring) : jsstring :=
  js "  function " ++ mode ++ js "(message: string): void;".

Definition implementationOf (mode : jsstring) : jsstring :=
  js "(globalThis as any)." ++ mode ++
  js " = function(_message: string) { /* no-op */ };".

(** The fixed parts of its template: up to the opening of the block,
    between the declarations and the stubs, and after the stubs. *)
Definition debugFileHead : jsstring :=
  line "// Mode-based logging helper functions that will be transformed by the build process" ++
  line "// These functions are declared globally and can be used anywhere without imports" ++
  line "" ++
  line "declare global {".

Definition debugFileMiddle : jsstring :=
  line "}" ++
  line "" ++
  line "// Make the functions available at runtime (though they'll be transformed)".

Definition debugFileTail : jsstring :=
  line "" ++
  line "export {}; // Make this a module".

(** The text [createDebugFile] writes for a mode list. *)
Definition debugFileContent (modes : list jsstring) : jsstring :=
  let globalDeclarations := join LF (map declarationOf modes) in
  let runtimeImplementations := join LF (map implementationOf modes) in
  debugFileHead ++
  globalDeclarations ++ LF ++
  debugFileMiddle ++
  runtimeImplementations ++ LF ++
  debugFileTail.

Definition createDebugFile (modes : list jsstring) (p : project)
  : ending * project :=
  let made :=
    if srcDir p then Some p
    else if permitted p
         then Some (Project (files p) true (permitted p) (logged p) (warned p))
         else None in
  match made with
  | None => (Failed CannotMakeDir, p)
  | Some p =>
      match files p debugPath with
      | Some _ =>
          (Done, log (js "[vite-mode-logging] src/debug.ts already exists, skipping...") p)
      | None =>
          if permitted p
          then (Done, writeFile debugPath (debugFileContent modes) p)
          else (Failed CannotWrite, p)
      end
  end.

Definition possibleMainFiles : list jsstring :=
  [js "src/main.tsx"; js "src/main.ts"; js "src/index.tsx"; js "src/index.ts";
   js "src/App.tsx"; js "src/App.ts"].

Definition importsDebug (content : jsstring) : bool :=
  includes content (js "import './debug'") ||
  includes content (js "import " ++ quoted "./debug").

Definition importLine : jsstring :=
  js "import './debug' // Load global logging functions".

Definition isImportLine (l : jsstring) : bool :=
  startsWith (js "import ") (trim l).

(** The loop of [updateMainFile] from line [i] on, with [insertIndex] as
    it stands. *)
Fixpoint scanImports (i insertIndex : nat) (lines : list jsstring) : nat :=
  match lines with
  | [] => insertIndex
  | l :: lines' =>
      if isImportLine l then scanImports (S i) (S i) lines'
      else if str_eqb (trim l) [] && (0 <? insertIndex) then i
      else if negb (isImportLine l) && (0 <? insertIndex) then insertIndex
      else scanImports (S i) insertIndex lines'
  end.

(** [lines.splice(i, 0, x)] for [i <= lines.length]. *)
Definition spliceIn (i : nat) (x : jsstring) (lines : list jsstring)
  : list jsstring :=
  firstn i lines ++ [x] ++ skipn i lines.

Definition isSome {A} (o : option A) : bool :=
  match o with Some _ => true | None => false end.

Definition updateMainFile (p : project) : ending * project :=
  match find (fun f => isSome (files p f)) possibleMainFiles with
  | None =>
      (Done,
       warn (js "[vite-mode-logging] Could not find main entry file, you may need to add " ++
             quoted "import './debug'" ++ js " manually") p)
  | Some mainFilePath =>
      match files p mainFilePath with
      | None => (Done, p)
      | Some content =>
          if importsDebug content
          then (Done,
                log (js "[vite-mode-logging] debug.ts already imported in main file, skipping...") p)
          else
            let lines := splitOn 10 content in
            let insertIndex := scanImports 0 0 lines in
            let lines := spliceIn insertIndex importLine lines in
            let content := join LF lines in
            if permitted p
            then (Done, writeFile mainFilePath content p)
            else (Failed CannotWrite, p)
      end
  end.

Section Setup.

Variable toUpperCase : jsstring -> jsstring.

(** The mode list of [initViteLogging], from the keys of the package's
    scripts as [Object.keys] gives them, the custom modes and the
    [includeAll] option. *)
Definition initialModes (scripts customModes : list jsstring)
    (includeAll : bool) : list jsstring :=
  let scriptModes :=
    map toUpperCase
        (filter (fun script => negb (existsb (str_eqb script) excludedScripts))
                scripts) in
  let allModes := addAll [] (scriptModes ++ map toUpperCase customModes) in
  if includeAll then allModes ++ [js "ALL"] else allModes.

End Setup.

(** ** The command line of the set-up script *)

(** The options object the script builds; a field that was never set is
    [None], and [initViteLogging] puts its default there. *)
Record options : Type := Options {
  customModes : option (list jsstring);
  includeAll : option bool;
  verbose : option bool
}.

Definition noOptions : options := Options None None None.

(** How the argument loop ends: at the end of the arguments, with
    [initViteLogging] called next, or at a help option, with the help text
    printed and the process left with status 0. *)
Inductive parsed : Type :=
| Run (o : options)
| HelpShown (o : options).

Definition optionNames : list jsstring :=
  [js "--verbose"; js "-v"; js "--no-all"; js "--custom-modes";
   js "--help"; js "-h"].

(** The loop over [args], from the argument at hand on. *)
Fixpoint parseArgs (args : list jsstring) (o : options) : parsed :=
  match args with
  | [] => Run o
  | a :: rest =>
      if str_eqb a (js "--verbose") || str_eqb a (js "-v")
      then parseArgs rest (Options (customModes o) (includeAll o) (Some true))
      else if str_eqb a (js "--no-all")
      then parseArgs rest (Options (customModes o) (Some false) (verbose o))
      else if str_eqb a (js "--custom-modes")
      then match rest with
           | [] => Run o
           | x :: rest' =>
               parseArgs rest'
                 (Options (Some (map trim (splitOn 44 x)))
                          (includeAll o) (verbose o))
           end
      else if str_eqb a (js "--help") || str_eqb a (js "-h")
      then HelpShown o
      else parseArgs rest o
  end.

(** ** Two small projects *)

(** A project with nothing in it, where files may be written. *)
Definition emptyProject : project := Project (fun _ => None) false true [] [].

(** A project whose entry file has one import, a blank line and a call. *)
Definition smallMain : jsstring :=
  line "import { run } from './run'" ++ line "" ++ js "run()".

Definition smallProject : project :=
  Project (fun q => if str_eqb q (js "src/main.ts") then Some smallMain else None)
          true true [] [].

(** ** Vocabulary for the further facts *)


(** ** Facts about strings *)

Lemma str_eqb_eq (a b : jsstring) : str_eqb a b = true <-> a = b.
Proof.
  revert b; induction a as [|x a IH]; intros [|y b]; simpl; split;
    try congruence; try reflexivity.
  - intros H. apply andb_true_iff in H as [H1 H2].
    apply N.eqb_eq in H1. apply IH in H2. congruence.
  - intros H. injection H as -> ->. rewrite N.eqb_refl. simpl.
    now apply IH.
Qed.

Lemma str_eqb_refl (a : jsstring) : str_eqb a a = true.
Proof. now apply str_eqb_eq. Qed.

Lemma str_eqb_neq (a b : jsstring) : str_eqb a b = false <-> a <> b.
Proof.
  split.
  - intros H E. apply str_eqb_eq in E. congruence.
  - intros H. destruct (str_eqb a b) eqn:E; [|reflexivity].
    apply str_eqb_eq in E. contradiction.
Qed.

Lemma startsWith_spec (p s : jsstring) :
  startsWith p s = true <-> exists t, s = p ++ t.
Proof.
  revert s; induction p as [|x p IH]; intros s; simpl.
  - split; [intros _; now exists s | reflexivity].
  - destruct s as [|y s].
    + split; [discriminate | intros [t H]; discriminate].
    + rewrite andb_true_iff, N.eqb_eq, IH. split.
      * intros [-> [t ->]]. now exists t.
      * intros [t H]. injection H as -> ->. split; [reflexivity | now exists t].
Qed.

Lemma includes_spec (s sub : jsstring) :
  includes s sub = true <-> exists pre post, s = pre ++ sub ++ post.
Proof.
  induction s as [|x s IH].
  - simpl. rewrite orb_false_r, startsWith_spec. split.
    + intros [t H]. now exists [], t.
    + intros [pre [post H]]. destruct pre; [now exists post|discriminate].
  - cbn [includes]. rewrite orb_true_iff, startsWith_spec, IH. split.
    + intros [[t H] | [pre [post H]]].
      * now exists [], t.
      * exists (x :: pre), post. now rewrite H.
    + intros [[|y pre] [post H]].
      * left. now exists post.
      * right. injection H as -> ->. now exists pre, post.
Qed.

(** ** The matcher enumerates the matches *)

Lemma flat_map_nil {A B} (f : A -> list B) (l : list A) :
  (forall a, In a l -> f a = []) -> flat_map f l = [].
Proof.
  induction l as [|a l IH]; simpl; intros H; [reflexivity|].
  rewrite (H a) by now left. apply IH. intros; apply H; now right.
Qed.

Lemma flat_map_agree {A B} (f g : A -> list B) (l : list A) :
  (forall a, In a l -> f a = g a) -> flat_map f l = flat_map g l.
Proof.
  induction l as [|a l IH]; simpl; intros H; [reflexivity|].
  rewrite (H a) by now left. f_equal. apply IH. intros; apply H; now right.
Qed.

(** Fuel beyond the length of the text ahead changes nothing. *)
Lemma star_iter_fuel (f : cursor -> list cursor) (n m : nat) (c : cursor) :
  length (rest c) <= n -> length (rest c) <= m ->
  star_iter f n c = star_iter f m c.
Proof.
  revert m c; induction n as [|n IH]; intros [|m] c Hn Hm; simpl;
    try reflexivity.
  - rewrite flat_map_nil; [reflexivity|].
    intros a _. destruct (Nat.ltb_spec (length (rest a)) (length (rest c)));
      [lia | reflexivity].
  - rewrite flat_map_nil; [reflexivity|].
    intros a _. destruct (Nat.ltb_spec (length (rest a)) (length (rest c)));
      [lia | reflexivity].
  - f_equal. apply flat_map_agree. intros a _.
    destruct (Nat.ltb_spec (length (rest a)) (length (rest c)));
      [apply IH; lia | reflexivity].
Qed.

Lemma star_iter_sound (f : cursor -> list cursor) (a : re) :
  (forall c e, In e (f c) -> Matches a c e) ->
  forall n c e, In e (star_iter f n c) -> Matches (Star a) c e.
Proof.
  intros Hf n; induction n as [|n IH]; intros c e; simpl.
  - intros [<- | []]. constructor.
  - rewrite in_app_iff, in_flat_map. intros [[d [Hd He]] | [<- | []]].
    + destruct (Nat.ltb_spec (length (rest d)) (length (rest c))) as [Hlt|];
        [|destruct He].
      eapply M_StarStep; eauto.
    + constructor.
Qed.

Lemma run_sound (r : re) : forall c e, In e (run r c) -> Matches r c e.
Proof.
  induction r as [|p|a IHa b IHb|a IHa b IHb|a IHa|n a IHa| |]; intros c e; simpl.
  - intros [<- | []]. constructor.
  - destruct c as [sn [|x rs] cp]; simpl; [intros []|].
    destruct (p x) eqn:Hp; [|intros []].
    intros [<- | []]. now constructor.
  - rewrite in_flat_map. intros [d [Hd He]]. eapply M_Seq; eauto.
  - rewrite in_app_iff. intros [H | H]; [apply M_AltL | apply M_AltR]; auto.
  - apply star_iter_sound. exact IHa.
  - rewrite in_map_iff. intros [d [<- Hd]]. constructor. auto.
  - destruct (atBoundary c) eqn:Hb; [|intros []].
    intros [<- | []]. now constructor.
  - destruct (rest c) eqn:Hr; [|intros []].
    intros [<- | []]. now constructor.
Qed.

Lemma run_complete (r : re) (c e : cursor) : Matches r c e -> In e (run r c).
Proof.
  induction 1; simpl.
  - now left.
  - rewrite H. now left.
  - apply in_flat_map. eauto.
  - apply in_app_iff. now left.
  - apply in_app_iff. now right.
  - destruct (length (rest c)); simpl; [now left|].
    apply in_app_iff. right. now left.
  - simpl in IHMatches2.
    destruct (length (rest c)) as [|n] eqn:Hn; [lia|]. simpl.
    apply in_app_iff. left. apply in_flat_map. exists d. split; [assumption|].
    destruct (Nat.ltb_spec (length (rest d)) (length (rest c))); [|lia].
    rewrite (star_iter_fuel _ (n := n) (m := length (rest d))); [assumption|lia|lia].
  - apply in_map. assumption.
  - rewrite H. now left.
  - rewrite H. now left.
Qed.

Theorem run_spec (r : re) (c e : cursor) : In e (run r c) <-> Matches r c e.
Proof. split; [apply run_sound | apply run_complete]. Qed.

(** ** Where a match starts and ends *)

Ltac inv H := inversion H; subst; clear H.

Lemma ahead_by_refl (c : cursor) : ahead_by [] c c.
Proof. split; reflexivity. Qed.

Lemma ahead_by_trans (u v : jsstring) (c d e : cursor) :
  ahead_by u c d -> ahead_by v d e -> ahead_by (u ++ v) c e.
Proof.
  intros [H1 H2] [H3 H4]. split.
  - now rewrite H1, H3, app_assoc.
  - now rewrite H4, H2, rev_app_distr, app_assoc.
Qed.

Lemma ahead_by_capture (w : jsstring) (n : nat) (c c0 e : cursor) :
  ahead_by w c e -> ahead_by w c (capture n c0 e).
Proof. intros [H1 H2]. split; assumption. Qed.

Lemma ahead_by_length (w : jsstring) (c e : cursor) :
  ahead_by w c e -> length (rest c) = length w + length (rest e).
Proof. intros [H _]. now rewrite H, length_app. Qed.

Lemma covered_ahead (w : jsstring) (c e : cursor) :
  ahead_by w c e -> covered c e = w.
Proof.
  intros [_ H]. unfold covered. rewrite H, length_app, length_rev.
  replace (length w + length (seen c) - length (seen c)) with (length (rev w) + 0)
    by (rewrite length_rev; lia).
  rewrite firstn_app_2. simpl. rewrite app_nil_r. apply rev_involutive.
Qed.

Lemma Matches_ahead (r : re) (c e : cursor) :
  Matches r c e -> exists w, ahead_by w c e.
Proof.
  induction 1.
  - exists []. apply ahead_by_refl.
  - exists [x]. split; reflexivity.
  - destruct IHMatches1 as [u Hu], IHMatches2 as [v Hv].
    exists (u ++ v). eapply ahead_by_trans; eauto.
  - assumption.
  - assumption.
  - exists []. apply ahead_by_refl.
  - destruct IHMatches1 as [u Hu], IHMatches2 as [v Hv].
    exists (u ++ v). eapply ahead_by_trans; eauto.
  - destruct IHMatches as [w Hw]. exists w. now apply ahead_by_capture.
  - exists []. apply ahead_by_refl.
  - exists []. apply ahead_by_refl.
Qed.

Lemma Matches_groupless (r : re) (c e : cursor) :
  Matches r c e -> groupless r = true -> caps e = caps c.
Proof.
  induction 1; simpl; intros G; try reflexivity;
    try (apply andb_true_iff in G as [G1 G2]); auto; try discriminate.
  - rewrite IHMatches2, IHMatches1; auto.
  - rewrite IHMatches2, IHMatches1; auto.
Qed.

(** A run of characters of one class. *)
Lemma Matches_star_chr (p : N -> bool) (c e : cursor) :
  Matches (Star (Chr p)) c e ->
  exists w, ahead_by w c e /\ forallb p w = true /\ caps e = caps c.
Proof.
  intros H. remember (Star (Chr p)) as r eqn:Hr.
  induction H; try discriminate; injection Hr as ->.
  - exists []. split; [apply ahead_by_refl | split; reflexivity].
  - destruct (IHMatches2 eq_refl) as [v [Hv [Pv Cv]]].
    inv H. exists (x :: v). split; [|split].
    + change (x :: v) with ([x] ++ v).
      eapply ahead_by_trans; [|exact Hv]. split; reflexivity.
    + simpl. now rewrite H3.
    + assumption.
Qed.

Lemma Matches_lit (s : jsstring) (c e : cursor) :
  Matches (lit s) c e -> ahead_by s c e /\ caps e = caps c.
Proof.
  revert c; induction s as [|x s IH]; intros c H; simpl in H.
  - inv H. split; [apply ahead_by_refl | reflexivity].
  - inv H.
    match goal with
    | [ H1 : Matches (Chr _) _ _, H2 : Matches (lit _) _ _ |- _ ] =>
        inv H1; apply IH in H2 as [A C]
    end.
    match goal with
    | [ H : only _ _ = true |- _ ] => apply N.eqb_eq in H as ->
    end.
    split; [|assumption].
    change (x :: s) with ([x] ++ s).
    eapply ahead_by_trans; [|exact A]. split; reflexivity.
Qed.

Lemma Matches_star_chr_intro (p : N -> bool) (w b r : list N) cp :
  forallb p w = true ->
  Matches (Star (Chr p)) (Cursor b (w ++ r) cp) (Cursor (rev w ++ b) r cp).
Proof.
  revert b; induction w as [|x w IH]; intros b H; simpl in *.
  - constructor.
  - apply andb_true_iff in H as [Hx Hw].
    rewrite <- app_assoc. simpl.
    eapply M_StarStep; [now constructor | simpl; lia | now apply IH].
Qed.

Lemma Matches_seq_inv (a b : re) (c e : cursor) :
  Matches (Seq a b) c e -> exists d, Matches a c d /\ Matches b d e.
Proof. intros H. inv H. eauto. Qed.

Lemma Matches_chr_inv (p : N -> bool) (c e : cursor) :
  Matches (Chr p) c e -> exists x, p x = true /\ ahead_by [x] c e /\ caps e = caps c.
Proof. intros H. inv H. exists x. repeat split; auto. Qed.

Lemma Matches_group_inv (n : nat) (a : re) (c e : cursor) :
  Matches (Group n a) c e -> exists e0, Matches a c e0 /\ e = capture n c e0.
Proof. intros H. inv H. eauto. Qed.

(** ** Searching *)

Lemma search_some (r : re) (behind ahead : list N) (c e : cursor) :
  search r behind ahead = Some (c, e) ->
  ahead_by (covered (Cursor behind ahead []) c) (Cursor behind ahead []) c /\
  caps c = [] /\ Matches r c e /\ exists l, run r c = e :: l.
Proof.
  revert behind; induction ahead as [|x t IH]; intros behind; simpl.
  - destruct (run r (Cursor behind [] [])) as [|e' l] eqn:Hr; [discriminate|].
    intros H. injection H as <- <-.
    rewrite (@covered_ahead [] _ _ (ahead_by_refl _)).
    split; [apply ahead_by_refl|]. split; [reflexivity|].
    split; [|now exists l]. apply run_sound. rewrite Hr. now left.
  - destruct (run r (Cursor behind (x :: t) [])) as [|e' l] eqn:Hr.
    + intros H. apply IH in H as [A [C [M L]]].
      assert (A' : ahead_by ([x] ++ covered (Cursor (x :: behind) t []) c)
                     (Cursor behind (x :: t) []) c).
      { eapply ahead_by_trans; [|exact A]. split; reflexivity. }
      rewrite (covered_ahead A'). auto.
    + intros H. injection H as <- <-.
      rewrite (@covered_ahead [] _ _ (ahead_by_refl _)).
      split; [apply ahead_by_refl|]. split; [reflexivity|].
      split; [|now exists l]. apply run_sound. rewrite Hr. now left.
Qed.

Lemma search_none (r : re) (behind ahead : list N) :
  search r behind ahead = None ->
  forall p q e, ahead = p ++ q -> ~ Matches r (Cursor (rev p ++ behind) q []) e.
Proof.
  revert behind; induction ahead as [|x t IH]; intros behind; simpl.
  - destruct (run r (Cursor behind [] [])) as [|e' l] eqn:Hr; [|discriminate].
    intros _ p q e E M. symmetry in E. apply app_eq_nil in E as [-> ->].
    apply run_complete in M. simpl in M. rewrite Hr in M. destruct M.
  - destruct (run r (Cursor behind (x :: t) [])) as [|e' l] eqn:Hr; [|discriminate].
    intros H [|y p] q e E M.
    + simpl in E, M. subst q. apply run_complete in M. rewrite Hr in M. destruct M.
    + injection E as <- ->. simpl in M. rewrite <- app_assoc in M.
      eapply IH; eauto.
Qed.

Lemma search_finds (r : re) (behind p q : list N) (e : cursor) :
  Matches r (Cursor (rev p ++ behind) q []) e ->
  search r behind (p ++ q) <> None.
Proof.
  intros M H. eapply search_none; eauto.
Qed.

Lemma test_true (r : re) (s : jsstring) :
  test r s = true <->
  exists p q e, s = p ++ q /\ Matches r (Cursor (rev p) q []) e.
Proof.
  unfold test. split.
  - destruct (search r [] s) as [[c e]|] eqn:H; [intros _|discriminate].
    apply search_some in H as [A [C [M _]]].
    remember (covered (Cursor [] s []) c) as w eqn:Hw. clear Hw.
    destruct A as [A1 A2], c as [sn rs cp]. simpl in *.
    rewrite app_nil_r in A2. subst.
    exists w, rs, e. split; [reflexivity | assumption].
  - intros [p [q [e [-> M]]]].
    destruct (search r [] (p ++ q)) eqn:H; [reflexivity|].
    exfalso. eapply search_finds; [|exact H]. rewrite app_nil_r. exact M.
Qed.

(** ** Cutting the text at the matches *)


Lemma scan_sources (r : re) (fuel : nat) (behind ahead : list N) :
  length ahead <= fuel -> sources (scan fuel r behind ahead) = ahead.
Proof.
  revert behind ahead; induction fuel as [|n IH]; intros behind ahead Hn;
    simpl; destruct (search r behind ahead) as [[c e]|] eqn:Hs;
    try (unfold sources; simpl; now rewrite app_nil_r).
  - destruct ahead; [|simpl in Hn; lia].
    pose proof (search_some _ _ _ Hs) as [A [C [M _]]].
    pose proof (ahead_by_length A) as LA. simpl in LA.
    apply Matches_ahead in M as [w M]. pose proof (ahead_by_length M) as LM.
    unfold sources. simpl. rewrite (covered_ahead M).
    destruct w; [|simpl in LM; lia].
    destruct (covered _ c); [reflexivity | simpl in LA; lia].
  - pose proof (search_some _ _ _ Hs) as [A [C [M _]]].
    pose proof (ahead_by_length A) as LA. simpl in LA.
    apply Matches_ahead in M as [w M]. pose proof (ahead_by_length M) as LM.
    pose proof (covered_ahead M) as Cv.
    destruct A as [A _], M as [M _]. simpl in A.
    assert (T : sources
                  (if length (rest e) <? length (rest c)
                   then scan n r (seen e) (rest e)
                   else match rest e with
                        | [] => []
                        | x :: t => Kept [x] :: scan n r (x :: seen e) t
                        end) = rest e).
    { destruct (Nat.ltb_spec (length (rest e)) (length (rest c))).
      - apply IH. lia.
      - destruct (rest e) as [|x t] eqn:He; [reflexivity|].
        unfold sources. cbn [map concat source]. fold sources. simpl.
        f_equal. apply IH. simpl in LM. lia. }
    unfold sources in *. cbn [map concat source whole hit_of].
    rewrite T, Cv, <- M. symmetry. exact A.
Qed.

Lemma scan_found (r : re) (fuel : nat) (behind ahead : list N) (h : hit) :
  In (Found h) (scan fuel r behind ahead) ->
  exists c e, h = hit_of c e /\ caps c = [] /\ Matches r c e.
Proof.
  revert behind ahead; induction fuel as [|n IH]; intros behind ahead; simpl;
    destruct (search r behind ahead) as [[c e]|] eqn:Hs;
    try (intros [H | []]; discriminate).
  - intros [H | [H | []]]; [discriminate|]. injection H as <-.
    apply search_some in Hs as [_ [C [M _]]]. eauto.
  - intros [H | [H | H]]; [discriminate| |].
    + injection H as <-. apply search_some in Hs as [_ [C [M _]]]. eauto.
    + destruct (length (rest e) <? length (rest c)); [eauto|].
      destruct (rest e); [destruct H|].
      destruct H as [H | H]; [discriminate | eauto].
Qed.

(** ** The call pattern *)

Lemma isUpper_word (x : N) : isUpper x = true -> isWordChar x = true.
Proof. unfold isWordChar. intros ->. reflexivity. Qed.

Ltac invm :=
  repeat match goal with
         | [ H : Matches (Seq _ _) _ _ |- _ ] => inv H
         | [ H : Matches (Group _ _) _ _ |- _ ] => inv H
         | [ H : Matches (Chr _) _ _ |- _ ] => inv H
         | [ H : Matches (Alt _ _) _ _ |- _ ] => inv H
         | [ H : Matches WordB _ _ |- _ ] => inv H
         | [ H : Matches Eoi _ _ |- _ ] => inv H
         | [ H : Matches Eps _ _ |- _ ] => inv H
         end.

Lemma allModes_callSite (c e : cursor) :
  Matches allModesRegex c e -> exists name ws body, callSite name ws body c e.
Proof.
  unfold allModesRegex. intros H. invm.
  match goal with
  | [ H : Matches (Star (Chr isNameChar)) _ _ |- _ ] =>
      apply Matches_star_chr in H as [nm [[N1 N2] [N3 N4]]]
  end.
  match goal with
  | [ H : Matches (Star (Chr isSpace)) _ _ |- _ ] =>
      pose proof (covered_ahead (w := x :: nm)
                    (c := Cursor behind (x :: ahead) cp) (e := e1)) as Cv;
      apply Matches_star_chr in H as [ws [[W1 W2] [W3 W4]]]
  end.
  match goal with
  | [ H : Matches (Star (Alt _ _)) _ _ |- _ ] =>
      pose proof (Matches_groupless H eq_refl) as B4;
      apply Matches_ahead in H as [body B]
  end.
  repeat match goal with
         | [ H : only _ _ = true |- _ ] => apply N.eqb_eq in H; subst
         end.
  simpl in *. subst.
  pose proof (covered_ahead B) as Cb. destruct B as [B1 B2]. simpl in *.
  rewrite Cv in * by (split; simpl; [reflexivity | now rewrite <- app_assoc]).
  exists (x :: nm), ws, body. split; [split|split; [|split; [|split]]]; simpl.
  - rewrite W1, B1, <- H6. rewrite <- !app_assoc. simpl.
    rewrite <- !app_assoc. reflexivity.
  - rewrite B2, N2. repeat (rewrite ?rev_app_distr; simpl).
    repeat (rewrite <- ?app_assoc; simpl). reflexivity.
  - rewrite Cb, B4. reflexivity.
  - rewrite H0. exact N3.
  - exact W3.
  - unfold atBoundary, wordAhead in H. simpl in H.
    rewrite (isUpper_word _ H0) in H.
    destruct (wordBehind _); [discriminate | reflexivity].
Qed.

Lemma found_callSite (code : jsstring) (h : hit) :
  In (Found h) (callSites code) ->
  exists ws,
    whole h = modeName h ++ ws ++ [40%N] ++ args h ++ [41%N] /\
    isModeName (modeName h) = true /\ forallb isSpace ws = true.
Proof.
  intros H. apply scan_found in H as [c [e [-> [C M]]]].
  apply allModes_callSite in M as [name [ws [body [A [G [Nm [Ws _]]]]]]].
  exists ws. unfold modeName, args, hit_of. cbn [whole groups].
  rewrite (covered_ahead A), G. simpl. auto.
Qed.

Lemma callSites_sources (code : jsstring) : sources (callSites code) = code.
Proof. apply scan_sources. apply Nat.le_refl. Qed.

Lemma rendered_app (m : jsstring) (a b : list segment) :
  rendered m (a ++ b) = rendered m a ++ rendered m b.
Proof. unfold rendered. now rewrite map_app, concat_app. Qed.

Lemma sources_app (a b : list segment) : sources (a ++ b) = sources a ++ sources b.
Proof. unfold sources. now rewrite map_app, concat_app. Qed.

(** Without a match the text comes back as it was. *)
Lemma no_match_segments (r : re) (s : jsstring) :
  search r [] s = None -> segments r s = [Kept s].
Proof.
  unfold segments. intros H. destruct (length s); simpl; now rewrite H.
Qed.



Lemma sourceFile_supported (id : jsstring) :
  test sourceFileRegex id = true -> hasSupportedExtension id.
Proof.
  intros H. apply test_true in H as [p [q [e [-> M]]]].
  unfold sourceFileRegex, Opt in M. simpl in M. invm.
  all: repeat match goal with
         | [ H : only _ _ = true |- _ ] => apply N.eqb_eq in H; subst
         end.
  all: simpl in *; subst.
  all: exists p; eexists; (split; [|reflexivity]); unfold supportedExtensions;
    simpl; tauto.
Qed.

Lemma isModeName_nameChars (name : jsstring) :
  isModeName name = true -> forallb isNameChar name = true.
Proof.
  destruct name as [|c t]; [discriminate|]. simpl.
  rewrite !andb_true_iff. intros [U T]. split; [|exact T].
  unfold isNameChar. now rewrite U.
Qed.

Lemma isSpace_not_nameChar (c : N) : isSpace c = true -> isNameChar c = false.
Proof.
  unfold isSpace, isNameChar, isUpper, isDigit, only, between.
  rewrite !orb_true_iff, !andb_true_iff, !N.leb_le, !N.eqb_eq.
  intros H. rewrite !orb_false_iff, !andb_false_iff, !N.leb_gt, N.eqb_neq.
  lia.
Qed.


Lemma asciiUpperCase_ascii (s : jsstring) :
  forallb isAscii s = true -> asciiUpperCase s = map upperA s.
Proof. reflexivity. Qed.

(** ** The call pattern, in words *)

Lemma isArgText_inner (g v : jsstring) :
  forallb (except 41) g = true ->
  isArgText true (g ++ 41%N :: v) = isArgText false v.
Proof.
  induction g as [|a g IH]; simpl; intros H; [reflexivity|].
  apply andb_true_iff in H as [A G]. unfold except in A. rewrite A.
  now apply IH.
Qed.

Lemma isArgText_inner_split (t : jsstring) :
  isArgText true t = true ->
  exists g v, t = g ++ 41%N :: v /\ forallb (except 41) g = true /\
              isArgText false v = true.
Proof.
  induction t as [|c t IH]; simpl; [discriminate|].
  destruct (N.eqb c 41) eqn:E; simpl.
  - apply N.eqb_eq in E. subst c. intros H. exists [], t. auto.
  - intros H. destruct (IH H) as [g [v [-> [G V]]]].
    exists (c :: g), v. simpl. unfold except at 1. rewrite E. auto.
Qed.

Lemma isArgText_unique (b1 : jsstring) :
  forall (inner : bool) (b2 r1 r2 : jsstring),
    isArgText inner b1 = true -> isArgText inner b2 = true ->
    b1 ++ 41%N :: r1 = b2 ++ 41%N :: r2 -> b1 = b2 /\ r1 = r2.
Proof.
  induction b1 as [|x b1 IH]; intros inner [|y b2] r1 r2 H1 H2 E;
    simpl in *.
  - injection E as ->. auto.
  - injection E as <- _. destruct inner; [discriminate H1|].
    discriminate H2.
  - injection E as -> _. destruct inner; [discriminate H2|].
    discriminate H1.
  - injection E as <- E. destruct inner.
    + destruct (IH _ _ _ _ H1 H2 E) as [-> ->]. auto.
    + destruct (N.eqb x 40).
      * destruct (IH _ _ _ _ H1 H2 E) as [-> ->]. auto.
      * destruct (N.eqb x 41); [discriminate H1|].
        destruct (IH _ _ _ _ H1 H2 E) as [-> ->]. auto.
Qed.

Lemma isArgText_paren (body : jsstring) (inner : bool) :
  isArgText inner body = true -> inner = false \/ In 41%N body.
Proof.
  revert inner; induction body as [|c t IH]; intros inner; simpl.
  - destruct inner; [discriminate | auto].
  - destruct inner; [|auto]. intros H. right.
    destruct (N.eqb_spec c 41); [now left|]. simpl in H.
    destruct (IH _ H); [discriminate | now right].
Qed.

(** What the argument part of the pattern goes over is an argument text. *)
Lemma Matches_args (c e : cursor) :
  Matches argTextRegex c e ->
  exists body, ahead_by body c e /\ isArgText false body = true /\
               caps e = caps c.
Proof.
  intros H. remember argTextRegex as r eqn:Hr.
  induction H; try discriminate; unfold argTextRegex in Hr; injection Hr as ->.
  - exists []. split; [apply ahead_by_refl | auto].
  - destruct (IHMatches2 eq_refl) as [v [Av [Tv Cv]]]. clear IHMatches1 IHMatches2.
    inv H.
    + match goal with
      | [ M : Matches (Chr notParen) _ _ |- _ ] =>
          apply Matches_chr_inv in M as [x [Px [Ax Cx]]]
      end.
      exists ([x] ++ v). split; [eapply ahead_by_trans; eauto|].
      split; [|congruence].
      unfold notParen, except in Px. apply andb_true_iff in Px as [P1 P2].
      apply negb_true_iff in P1, P2. simpl. now rewrite P1, P2.
    + match goal with
      | [ M : Matches (Seq _ _) _ _ |- _ ] =>
          apply Matches_seq_inv in M as [d1 [M1 M]];
          apply Matches_seq_inv in M as [d2 [M2 M3]]
      end.
      apply Matches_chr_inv in M1 as [x [Px [Ax Cx]]].
      apply Matches_star_chr in M2 as [g [Ag [Pg Cg]]].
      apply Matches_chr_inv in M3 as [y [Py [Ay Cy]]].
      apply N.eqb_eq in Px, Py. subst x y.
      exists ([40%N] ++ g ++ [41%N] ++ v). split.
      * eapply ahead_by_trans; [exact Ax|].
        eapply ahead_by_trans; [exact Ag|].
        eapply ahead_by_trans; [exact Ay | exact Av].
      * split; [|congruence]. simpl. now rewrite isArgText_inner.
Qed.

(** The argument part goes over every argument text. *)
Lemma args_Matches (n : nat) :
  forall (body b r : jsstring) cp,
    length body <= n -> isArgText false body = true ->
    Matches argTextRegex (Cursor b (body ++ r) cp) (Cursor (rev body ++ b) r cp).
Proof.
  induction n as [|n IH]; intros body b r cp L H.
  - destruct body; [apply M_StarStop | simpl in L; lia].
  - destruct body as [|x t]; [apply M_StarStop|].
    simpl in H, L. destruct (N.eqb x 40) eqn:X.
    + apply N.eqb_eq in X. subst x.
      apply isArgText_inner_split in H as [g [v [-> [G V]]]].
      rewrite length_app in L. simpl in L.
      eapply M_StarStep with
        (d := Cursor (41%N :: rev g ++ 40%N :: b) (v ++ r) cp).
      * apply M_AltR. simpl. rewrite <- app_assoc. simpl.
        eapply M_Seq; [apply M_Chr; reflexivity|].
        eapply M_Seq; [apply Matches_star_chr_intro; exact G|].
        apply M_Chr. reflexivity.
      * cbn [rest]. repeat (rewrite ?length_app; cbn [length]). lia.
      * replace (rev ((40%N :: g ++ 41%N :: v)) ++ b)
          with (rev v ++ 41%N :: rev g ++ 40%N :: b).
        -- apply IH; [lia | exact V].
        -- simpl. rewrite rev_app_distr. simpl.
           rewrite <- !app_assoc. reflexivity.
    + destruct (N.eqb x 41) eqn:Y; [discriminate|].
      eapply M_StarStep with (d := Cursor (x :: b) (t ++ r) cp).
      * apply M_AltL. simpl. apply M_Chr. unfold notParen, except.
        now rewrite X, Y.
      * simpl. lia.
      * simpl. rewrite <- app_assoc. simpl. apply IH; [lia | exact H].
Qed.

(** Two runs of characters of one class that end where the class ends
    are the same run. *)
Lemma span_unique (f : N -> bool) (u : list N) :
  forall v p q,
    forallb f u = true -> forallb f v = true ->
    match p with x :: _ => f x = false | [] => True end ->
    match q with x :: _ => f x = false | [] => True end ->
    u ++ p = v ++ q -> u = v /\ p = q.
Proof.
  induction u as [|a u IH]; intros [|b v] p q Fu Fv Hp Hq E; simpl in *.
  - auto.
  - subst p. apply andb_true_iff in Fv as [Fb _]. congruence.
  - subst q. apply andb_true_iff in Fu as [Fa _]. congruence.
  - injection E as -> E. apply andb_true_iff in Fu as [_ Fu].
    apply andb_true_iff in Fv as [_ Fv].
    destruct (IH v p q Fu Fv Hp Hq E) as [-> ->]. auto.
Qed.

Lemma callAt_unique (behind text n1 w1 b1 r1 n2 w2 b2 r2 : jsstring) :
  callAt behind text n1 w1 b1 r1 -> callAt behind text n2 w2 b2 r2 ->
  n1 = n2 /\ w1 = w2 /\ b1 = b2 /\ r1 = r2.
Proof.
  intros [E1 [N1 [W1 [B1 _]]]] [E2 [N2 [W2 [B2 _]]]].
  rewrite E1 in E2. unfold callText in E2. rewrite <- !app_assoc in E2.
  assert (K : forall ws t, forallb isSpace ws = true ->
                match ws ++ [40%N] ++ t with
                | x :: _ => isNameChar x = false | [] => True end).
  { intros [|x ws] t H; simpl; [reflexivity|].
    apply andb_true_iff in H as [H _]. now apply isSpace_not_nameChar. }
  destruct (@span_unique isNameChar n1 n2 _ _
              (isModeName_nameChars _ N1) (isModeName_nameChars _ N2)
              (K w1 _ W1) (K w2 _ W2) E2) as [-> E3].
  destruct (@span_unique isSpace w1 w2
              ([40%N] ++ b1 ++ [41%N] ++ r1) ([40%N] ++ b2 ++ [41%N] ++ r2)
              W1 W2 eq_refl eq_refl E3)
    as [-> E4].
  simpl in E4. injection E4 as E4.
  destruct (@isArgText_unique b1 false b2 r1 r2 B1 B2 E4) as [-> ->]. auto.
Qed.


(** Every match of the call pattern is a call site, ... *)
Lemma allModes_callAt (behind text : jsstring) cp (e : cursor) :
  Matches allModesRegex (Cursor behind text cp) e ->
  exists name ws body rest,
    callAt behind text name ws body rest /\
    e = Cursor (rev (callText name ws body) ++ behind) rest
               ((2, body) :: (1, name) :: cp).
Proof.
  unfold allModesRegex. intros H.
  apply Matches_seq_inv in H as [d0 [H0 H]].
  apply Matches_seq_inv in H as [d1 [H1 H]].
  apply Matches_seq_inv in H as [d2 [H2 H]].
  apply Matches_seq_inv in H as [d3 [H3 H]].
  apply Matches_seq_inv in H as [d4 [H4 H5]].
  inv H0.
  apply Matches_group_inv in H1 as [g1 [H1 ->]].
  apply Matches_seq_inv in H1 as [g0 [H1a H1b]].
  apply Matches_chr_inv in H1a as [x [Px [Ax Cx]]].
  apply Matches_star_chr in H1b as [nm [Anm [Pnm Cnm]]].
  pose proof (ahead_by_trans Ax Anm) as A1.
  pose proof (covered_ahead A1) as V1.
  apply Matches_star_chr in H2 as [ws [Aws [Pws Cws]]].
  apply Matches_chr_inv in H3 as [y [Py [Ay Cy]]].
  apply N.eqb_eq in Py. subst y.
  apply Matches_group_inv in H4 as [g2 [H4 ->]].
  apply Matches_args in H4 as [body [Ab [Tb Cb]]].
  pose proof (covered_ahead Ab) as V2.
  apply Matches_chr_inv in H5 as [z [Pz [Az Cz]]].
  apply N.eqb_eq in Pz. subst z.
  pose proof (ahead_by_trans
                (ahead_by_capture 1 (Cursor behind text cp) A1)
                (ahead_by_trans Aws
                   (ahead_by_trans Ay
                      (ahead_by_trans
                         (ahead_by_capture 2 d3 Ab) Az)))) as A.
  exists ([x] ++ nm), ws, body, (rest e).
  destruct A as [A B].
  split.
  - split; [|split; [|split; [|split]]].
    + exact A.
    + simpl. now rewrite Px, Pnm.
    + exact Pws.
    + exact Tb.
    + match goal with
      | [ K : atBoundary _ = true |- _ ] =>
          unfold atBoundary, wordBehind, wordAhead in K; simpl in K;
          destruct Ax as [Ax _]; simpl in Ax; rewrite Ax in K; simpl in K;
          rewrite (isUpper_word _ Px) in K
      end.
      unfold afterWord. destruct behind as [|b0 behind]; [reflexivity|].
      destruct (isWordChar b0); [discriminate | reflexivity].
  - destruct e as [se re ce]. cbn [seen rest caps] in *. f_equal.
    + exact B.
    + rewrite Cz. cbn [capture caps]. rewrite V2, Cb, Cy, Cws.
      cbn [capture caps]. rewrite V1, Cnm, Cx. reflexivity.
Qed.

(** ... and the pattern matches wherever a call site begins. *)
Lemma callAt_Matches (behind text name ws body more : jsstring) cp :
  callAt behind text name ws body more ->
  Matches allModesRegex (Cursor behind text cp)
    (Cursor (rev (callText name ws body) ++ behind) more
            ((2, body) :: (1, name) :: cp)).
Proof.
  intros [-> [Nm [Ws [Tb Bw]]]].
  destruct name as [|x nm]; [discriminate|]. simpl in Nm.
  apply andb_true_iff in Nm as [Px Pnm].
  set (c0 := Cursor behind (callText (x :: nm) ws body ++ more) cp).
  set (c1 := Cursor (rev nm ++ x :: behind)
                    (ws ++ [40%N] ++ body ++ [41%N] ++ more) cp).
  assert (M1 : Matches (Chr isUpper +++ Star (Chr isNameChar)) c0 c1).
  { unfold c0, c1, callText. rewrite <- !app_assoc. simpl.
    eapply M_Seq; [apply M_Chr; exact Px|].
    apply Matches_star_chr_intro. exact Pnm. }
  assert (A1 : ahead_by (x :: nm) c0 c1).
  { unfold c0, c1, callText. split; cbn [seen rest].
    - rewrite <- !app_assoc. reflexivity.
    - simpl. rewrite <- app_assoc. reflexivity. }
  set (c2 := Cursor (rev ws ++ rev nm ++ x :: behind)
                    ([40%N] ++ body ++ [41%N] ++ more) ((1, x :: nm) :: cp)).
  set (c3 := Cursor (40%N :: rev ws ++ rev nm ++ x :: behind)
                    (body ++ [41%N] ++ more) ((1, x :: nm) :: cp)).
  set (c4 := Cursor (rev body ++ 40%N :: rev ws ++ rev nm ++ x :: behind)
                    ([41%N] ++ more) ((1, x :: nm) :: cp)).
  assert (A4 : ahead_by body c3 c4) by (split; reflexivity).
  unfold allModesRegex.
  eapply M_Seq with (d := c0).
  { apply M_WordB. unfold atBoundary, wordBehind, wordAhead, c0, callText.
    simpl. unfold afterWord in Bw. rewrite Bw, (isUpper_word _ Px).
    reflexivity. }
  eapply M_Seq with (d := capture 1 c0 c1); [now apply M_Group|].
  unfold capture. rewrite (covered_ahead A1). cbn [seen rest caps c1].
  eapply M_Seq with (d := c2); [apply Matches_star_chr_intro; exact Ws|].
  eapply M_Seq with (d := c3); [apply M_Chr; reflexivity|].
  eapply M_Seq with (d := capture 2 c3 c4).
  { apply M_Group. apply (@args_Matches (length body)); auto. }
  unfold capture. rewrite (covered_ahead A4). cbn [seen rest caps c4].
  replace (rev (callText (x :: nm) ws body) ++ behind)
    with (41%N :: rev body ++ 40%N :: rev ws ++ rev nm ++ x :: behind).
  - apply M_Chr. reflexivity.
  - unfold callText. simpl.
    repeat (rewrite ?rev_app_distr; simpl; rewrite <- ?app_assoc).
    reflexivity.
Qed.

(** From one place the pattern matches in one way at most. *)
Lemma allModes_unique (behind text : jsstring) cp (e1 e2 : cursor) :
  Matches allModesRegex (Cursor behind text cp) e1 ->
  Matches allModesRegex (Cursor behind text cp) e2 -> e1 = e2.
Proof.
  intros M1 M2.
  apply allModes_callAt in M1 as [n1 [w1 [b1 [r1 [C1 ->]]]]].
  apply allModes_callAt in M2 as [n2 [w2 [b2 [r2 [C2 ->]]]]].
  destruct (callAt_unique C1 C2) as [-> [-> [-> ->]]]. reflexivity.
Qed.

(** Before the place [search] finds there is no match. *)
Lemma search_first (r : re) (ahead : list N) :
  forall behind c e,
    search r behind ahead = Some (c, e) ->
    forall p q e',
      covered (Cursor behind ahead []) c = p ++ q -> q <> [] ->
      ~ Matches r (Cursor (rev p ++ behind) (q ++ rest c) []) e'.
Proof.
  induction ahead as [|x t IH]; intros behind c e; simpl.
  - destruct (run r (Cursor behind [] [])) as [|e0 l] eqn:Hr; [discriminate|].
    intros H p q e' E Q. injection H as <- <-.
    rewrite (@covered_ahead [] _ _ (ahead_by_refl _)) in E.
    symmetry in E. apply app_eq_nil in E as [_ ->]. contradiction.
  - destruct (run r (Cursor behind (x :: t) [])) as [|e0 l] eqn:Hr.
    + intros H p q e' E Q M.
      pose proof (search_some _ _ _ H) as [A _].
      assert (A' : ahead_by ([x] ++ covered (Cursor (x :: behind) t []) c)
                     (Cursor behind (x :: t) []) c).
      { eapply ahead_by_trans; [|exact A]. split; reflexivity. }
      rewrite (covered_ahead A') in E.
      destruct p as [|y p]; simpl in E.
      * subst q. simpl in M. destruct A as [A _]. simpl in A.
        rewrite <- A in M. apply run_complete in M. rewrite Hr in M.
        destruct M.
      * injection E as <- E. simpl in M. rewrite <- app_assoc in M.
        exact (IH _ _ _ H p q e' E Q M).
    + intros H p q e' E Q. injection H as <- <-.
      rewrite (@covered_ahead [] _ _ (ahead_by_refl _)) in E.
      symmetry in E. apply app_eq_nil in E as [_ ->]. contradiction.
Qed.

Lemma callText_length (name ws body : jsstring) :
  0 < length (callText name ws body).
Proof. unfold callText. repeat (rewrite ?length_app; simpl). lia. Qed.

(** What [search] finds with the call pattern: the first call site. *)
Lemma search_call (behind text : jsstring) (c e : cursor) :
  search allModesRegex behind text = Some (c, e) ->
  exists kept name ws body more,
    text = kept ++ callText name ws body ++ more /\
    c = Cursor (rev kept ++ behind) (callText name ws body ++ more) [] /\
    e = Cursor (rev (callText name ws body) ++ rev kept ++ behind) more
               [(2, body); (1, name)] /\
    callAt (rev kept ++ behind) (callText name ws body ++ more)
           name ws body more /\
    (forall p q, kept = p ++ q -> q <> [] ->
       ~ callBegins (rev p ++ behind) (q ++ callText name ws body ++ more)).
Proof.
  intros Hs.
  pose proof (search_some _ _ _ Hs) as [A [C [M _]]].
  pose proof (@search_first allModesRegex text behind c e Hs) as F.
  remember (covered (Cursor behind text []) c) as kept eqn:K. clear K.
  destruct c as [sc rc cc]. destruct A as [A1 A2].
  cbn [seen rest caps] in *. subst cc sc.
  apply allModes_callAt in M as [name [ws [body [more [Ca ->]]]]].
  pose proof Ca as [E _]. subst rc.
  exists kept, name, ws, body, more.
  split; [exact A1|]. split; [reflexivity|]. split; [reflexivity|].
  split; [exact Ca|].
  intros p q Ek Q [n' [w' [b' [r' Cb]]]].
  apply (@callAt_Matches _ _ _ _ _ _ []) in Cb.
  exact (F p q _ Ek Q Cb).
Qed.

Lemma hit_of_call (behind w more : jsstring) cp cq :
  hit_of (Cursor behind (w ++ more) cp) (Cursor (rev w ++ behind) more cq) =
  Hit w cq.
Proof.
  unfold hit_of. f_equal. apply covered_ahead. split; reflexivity.
Qed.

(** The scan cuts the text at its call sites. *)
Lemma scan_cutting (fuel : nat) :
  forall behind text,
    length text <= fuel ->
    Cutting behind text (scan fuel allModesRegex behind text).
Proof.
  induction fuel as [|n IH]; intros behind text L;
    cbn [scan];
    destruct (search allModesRegex behind text) as [[c e]|] eqn:Hs.
  - exfalso.
    apply search_call in Hs as [kept [name [ws [body [more [E _]]]]]].
    pose proof (callText_length name ws body) as Lc.
    rewrite E in L. rewrite !length_app in L. lia.
  - apply Cutting_rest. intros p q E [n' [w' [b' [r' Cb]]]].
    apply (@callAt_Matches _ _ _ _ _ _ []) in Cb.
    exact (@search_none _ _ _ Hs p q _ E Cb).
  - apply search_call in Hs
      as [kept [name [ws [body [more [E [-> [-> [Ca F]]]]]]]]].
    pose proof (callText_length name ws body) as Lc.
    rewrite hit_of_call. cbn [seen rest].
    replace (length more <? length (callText name ws body ++ more)) with true
      by (symmetry; apply Nat.ltb_lt; rewrite length_app; lia).
    replace (covered (Cursor behind text [])
               (Cursor (rev kept ++ behind) (callText name ws body ++ more) []))
      with kept
      by (symmetry; apply covered_ahead; split; [exact E | reflexivity]).
    rewrite E. apply Cutting_call; [exact F | exact Ca |].
    apply IH. rewrite E in L. rewrite !length_app in L. lia.
  - apply Cutting_rest. intros p q E [n' [w' [b' [r' Cb]]]].
    apply (@callAt_Matches _ _ _ _ _ _ []) in Cb.
    exact (@search_none _ _ _ Hs p q _ E Cb).
Qed.

Lemma Cutting_sources (behind text : jsstring) (segs : list segment) :
  Cutting behind text segs -> sources segs = text.
Proof.
  induction 1 as [behind text _ | behind kept name ws body more segs _ _ _ IH].
  - unfold sources. simpl. apply app_nil_r.
  - unfold sources in *. cbn [map concat source whole]. now rewrite IH.
Qed.

(** A text has one cutting. *)
Lemma Cutting_deterministic (behind text : jsstring) (s1 s2 : list segment) :
  Cutting behind text s1 -> Cutting behind text s2 -> s1 = s2.
Proof.
  intros H1. revert s2.
  induction H1 as [behind text N1
                  | behind kept name ws body more segs N1 C1 _ IH];
    intros s2 H2.
  - remember text as t2 eqn:Et in H2.
    destruct H2 as [behind t2 N2 | behind k2 n2 w2 b2 m2 segs2 N2 C2 H2].
    + now subst.
    + exfalso. apply (N1 k2 (callText n2 w2 b2 ++ m2) (eq_sym Et)).
      exists n2, w2, b2, m2. exact C2.
  - remember (kept ++ callText name ws body ++ more) as t2 eqn:Et in H2.
    destruct H2 as [behind t2 N2 | behind k2 n2 w2 b2 m2 segs2 N2 C2 H2].
    + exfalso. subst t2.
      apply (N2 kept (callText name ws body ++ more) eq_refl).
      exists name, ws, body, more. exact C1.
    + assert (K : kept = k2 /\
                  callText name ws body ++ more = callText n2 w2 b2 ++ m2).
      { symmetry in Et. apply app_eq_app in Et as [l [[E1 E2] | [E1 E2]]].
        - destruct l as [|y l].
          + rewrite app_nil_r in E1. simpl in E2. auto.
          + exfalso. apply (N1 k2 (y :: l) E1); [discriminate|].
            rewrite <- E2. exists n2, w2, b2, m2. exact C2.
        - destruct l as [|y l].
          + rewrite app_nil_r in E1. simpl in E2. auto.
          + exfalso. apply (N2 kept (y :: l) E1); [discriminate|].
            rewrite <- E2. exists name, ws, body, more. exact C1. }
      destruct K as [<- E]. rewrite <- E in C2.
      destruct (callAt_unique C1 C2) as [<- [<- [<- <-]]].
      f_equal. f_equal. apply IH. exact H2.
Qed.

(** The call sites the scan finds are those of the text's cutting, and
    no others. *)
Lemma callSites_cutting (code : jsstring) : Cutting [] code (callSites code).
Proof. apply scan_cutting. apply Nat.le_refl. Qed.

Lemma cutting_callSites (code : jsstring) (segs : list segment) :
  Cutting [] code segs -> callSites code = segs.
Proof.
  intros H. exact (Cutting_deterministic (callSites_cutting code) H).
Qed.

(** A call site of a cutting, with the text around it. *)
Lemma Cutting_at (behind text : jsstring) (segs : list segment) :
  Cutting behind text segs ->
  forall pre h post,
    segs = pre ++ Found h :: post ->
    exists name ws body,
      h = Hit (callText name ws body) [(2, body); (1, name)] /\
      callAt (rev (sources pre) ++ behind) (callText name ws body ++ sources post)
             name ws body (sources post).
Proof.
  induction 1 as [behind text _
                 | behind kept name ws body more segs _ C1 H1 IH];
    intros pre h post E.
  - destruct pre as [|a [|b pre]]; discriminate E.
  - destruct pre as [|a [|b pre]]; try discriminate E.
    + injection E as <- <- <-. exists name, ws, body. split; [reflexivity|].
      unfold sources at 1. cbn [map concat source]. rewrite app_nil_r.
      now rewrite (Cutting_sources H1).
    + injection E as <- <- E.
      destruct (IH _ _ _ E) as [n' [w' [b' [-> Ca]]]].
      exists n', w', b'. split; [reflexivity|].
      unfold sources at 1. cbn [map concat source whole].
      fold (sources pre).
      rewrite !rev_app_distr, <- !app_assoc. exact Ca.
Qed.



(** ** The call rewriter *)

Section RewriterFacts.

Variable toUpperCase : jsstring -> jsstring.

Hypothesis toUpperCase_ascii :
  forall s, forallb isAscii s = true -> toUpperCase s = map upperA s.

Lemma rewrite_rendered (mode code : jsstring) :
  rewrite toUpperCase mode code = rendered (toUpperCase mode) (callSites code).
Proof. reflexivity. Qed.

Lemma rewrite_at (mode code : jsstring) (pre post : list segment) (h : hit) :
  callSites code = pre ++ Found h :: post ->
  code = sources pre ++ whole h ++ sources post /\
  rewrite toUpperCase mode code =
    rendered (toUpperCase mode) pre ++
    replacer (toUpperCase mode) (modeName h) (args h) ++
    rendered (toUpperCase mode) post.
Proof.
  intros H. split.
  - rewrite <- (callSites_sources code), H, sources_app. reflexivity.
  - rewrite rewrite_rendered, H, rendered_app. reflexivity.
Qed.



(** C2, as the code has it: a call site of the text's cutting whose Mode
    Name is [ALL] becomes, under every active mode, [console.log] with the
    argument text as it was; it is not deleted. *)
Theorem all_call_always_logged
    (mode code : jsstring) (pre post : list segment) (h : hit) :
  Cutting [] code (pre ++ Found h :: post) ->
  modeName h = js "ALL" ->
  callSites code = pre ++ Found h :: post /\
  (exists ws,
     whole h = js "ALL" ++ ws ++ js "(" ++ args h ++ js ")" /\
     forallb isSpace ws = true) /\
  code = sources pre ++ whole h ++ sources post /\
  rewrite toUpperCase mode code =
    rendered (toUpperCase mode) pre ++
    (js "console.log(" ++ args h ++ js ")") ++
    rendered (toUpperCase mode) post /\
  js "console.log(" ++ args h ++ js ")" <> [].
Proof.
  intros H A.
  destruct (Cutting_at H pre h post eq_refl) as [name [ws [body [Eh Ca]]]].
  apply cutting_callSites in H.
  destruct (@rewrite_at mode code pre post h H) as [S R].
  destruct Ca as [_ [_ [Ws _]]].
  split; [exact H|]. split.
  - exists ws. split; [|exact Ws]. rewrite <- A, Eh. reflexivity.
  - split; [exact S|]. split.
    + rewrite R. unfold replacer. rewrite A. reflexivity.
    + discriminate.
Qed.

(** C3: with active mode "dev", the text
    DEV("hello"); DEBUG("hi"); ALL("always");
    is rewritten to
    console.log("hello"); ; console.log("always");
    and the rewrite reports a change. *)
Theorem scenario_dev_debug_all :
  let input :=
    js "DEV(" ++ quoted "hello" ++ js "); DEBUG(" ++ quoted "hi" ++
    js "); ALL(" ++ quoted "always" ++ js ");" in
  let output :=
    js "console.log(" ++ quoted "hello" ++ js "); ; console.log(" ++
    quoted "always" ++ js ");" in
  rewrite toUpperCase (js "dev") input = output /\
  changed toUpperCase (js "dev") input = true /\
  transform toUpperCase (js "dev") input (js "src/app.ts") = Some output.
Proof.
  intros input output.
  assert (U : toUpperCase (js "dev") = js "DEV")
    by (now rewrite toUpperCase_ascii).
  assert (R : rewrite toUpperCase (js "dev") input = output).
  { rewrite rewrite_rendered, U. vm_compute. reflexivity. }
  split; [exact R|]. split.
  - unfold changed. rewrite R. vm_compute. reflexivity.
  - unfold transform. rewrite R. vm_compute. reflexivity.
Qed.



(** C8, as the code has it: a text with no Mode Name followed, after any
    white space, by an opening parenthesis is returned as it is under
    every active mode, and no change is reported. *)
Theorem no_call_pattern_no_change (mode s : jsstring) :
  ~ spacedCallPattern s ->
  rewrite toUpperCase mode s = s /\
  changed toUpperCase mode s = false /\
  forall id, transform toUpperCase mode s id = None.
Proof.
  intros Hs.
  assert (N : search allModesRegex [] s = None).
  { destruct (search allModesRegex [] s) as [[c e]|] eqn:E; [|reflexivity].
    exfalso. apply Hs.
    apply search_some in E as [[A _] [_ [M _]]]. simpl in A.
    apply allModes_callSite in M as [name [ws [body [[B _] [_ [Nm [Ws _]]]]]]].
    exists (covered (Cursor [] s []) c), name, ws, (body ++ [41%N] ++ rest e).
    split; [exact Nm|]. split; [exact Ws|].
    rewrite A, B, <- !app_assoc. reflexivity. }
  assert (R : rewrite toUpperCase mode s = s).
  { rewrite rewrite_rendered. unfold callSites.
    rewrite (no_match_segments _ _ N). unfold rendered. simpl.
    apply app_nil_r. }
  split; [exact R|]. split.
  - unfold changed. now rewrite R, str_eqb_refl.
  - intros id. unfold transform. rewrite R, str_eqb_refl.
    destruct (test sourceFileRegex id), (includes id (js "debug.ts"));
      reflexivity.
Qed.

(** C9: a file whose path does not end in [.ts], [.tsx], [.js] or [.jsx],
    and a file whose path names the declarations artifact [debug.ts], is
    returned unchanged by the transform, whatever its content and the
    active mode. *)
Theorem other_files_and_artifact_unchanged (mode code id : jsstring) :
  ~ hasSupportedExtension id \/ namesArtifact id ->
  transform toUpperCase mode code id = None.
Proof.
  intros [H | H]; unfold transform.
  - destruct (test sourceFileRegex id) eqn:T; [|reflexivity].
    exfalso. apply H. now apply sourceFile_supported.
  - destruct H as [pre [post H]].
    assert (I : includes id (js "debug.ts") = true)
      by (apply includes_spec; eauto).
    rewrite I. destruct (test sourceFileRegex id); reflexivity.
Qed.

End RewriterFacts.


(** ** Declarations in the artifact *)

Lemma Matches_lit_i_intro (s w b r : list N) cp :
  sameText s w = true ->
  Matches (lit_i s) (Cursor b (w ++ r) cp) (Cursor (rev w ++ b) r cp).
Proof.
  revert w b; induction s as [|a s IH]; intros [|x w] b H; simpl in *;
    try discriminate.
  - constructor.
  - apply andb_true_iff in H as [Hx Hw].
    rewrite <- app_assoc. simpl.
    eapply M_Seq; [now constructor | now apply IH].
Qed.

Lemma Matches_lit_i (s : jsstring) (c e : cursor) :
  Matches (lit_i s) c e ->
  exists w, ahead_by w c e /\ sameText s w = true /\ caps e = caps c.
Proof.
  revert c; induction s as [|a s IH]; intros c H; simpl in H.
  - inv H. exists []. split; [apply ahead_by_refl | auto].
  - inv H.
    match goal with
    | [ H1 : Matches (Chr _) _ _, H2 : Matches (lit_i _) _ _ |- _ ] =>
        inv H1; apply IH in H2 as [w [A [T C]]]
    end.
    exists (x :: w). split; [|split].
    + change (x :: w) with ([x] ++ w).
      eapply ahead_by_trans; [|exact A]. split; reflexivity.
    + simpl. apply andb_true_iff. auto.
    + assumption.
Qed.

Lemma declaration_matches (F : jsstring) (c e : cursor) :
  Matches (globalDeclRegex F) c e ->
  exists w, ahead_by w c e /\ declarationText F w.
Proof.
  unfold globalDeclRegex, Plus. intros H.
  apply Matches_seq_inv in H as [d1 [H1 H]].
  apply Matches_seq_inv in H as [d2 [H2 H]].
  apply Matches_seq_inv in H2 as [d2' [H2a H2b]].
  apply Matches_seq_inv in H as [d3 [H3 H]].
  apply Matches_seq_inv in H as [d4 [H4 H5]].
  apply Matches_lit_i in H1 as [fn [A1 [T1 _]]].
  apply Matches_chr_inv in H2a as [x [Px [A2a _]]].
  apply Matches_star_chr in H2b as [ws1 [A2b [P2 _]]].
  apply Matches_lit_i in H3 as [nm [A3 [T3 _]]].
  apply Matches_star_chr in H4 as [ws2 [A4 [P4 _]]].
  apply Matches_chr_inv in H5 as [y [Py [A5 _]]].
  apply N.eqb_eq in Py. subst y.
  pose proof (ahead_by_trans A1 (ahead_by_trans A2a (ahead_by_trans A2b
    (ahead_by_trans A3 (ahead_by_trans A4 A5))))) as A.
  exists (fn ++ [x] ++ ws1 ++ nm ++ ws2 ++ [40%N]). split; [exact A|].
  exists fn, ([x] ++ ws1), nm, ws2. repeat split; auto.
  - discriminate.
  - simpl. now rewrite Px.
Qed.

Lemma declaration_matches_intro (F w b r : jsstring) :
  declarationText F w ->
  exists e, Matches (globalDeclRegex F) (Cursor b (w ++ r) []) e.
Proof.
  intros [fn [ws1 [nm [ws2 [-> [T1 [N1 [P1 [T3 P4]]]]]]]]].
  destruct ws1 as [|x ws1]; [contradiction|]. simpl in P1.
  apply andb_true_iff in P1 as [Px P1].
  eexists. unfold globalDeclRegex, Plus.
  rewrite <- !app_assoc.
  eapply M_Seq; [apply Matches_lit_i_intro; exact T1|].
  eapply M_Seq.
  { eapply M_Seq.
    - simpl. apply M_Chr. exact Px.
    - apply Matches_star_chr_intro. exact P1. }
  eapply M_Seq; [apply Matches_lit_i_intro; exact T3|].
  eapply M_Seq; [apply Matches_star_chr_intro; exact P4|].
  simpl. apply M_Chr. reflexivity.
Qed.

(** The registry's test, in words: the content holds a declaration text. *)
Lemma declared_spec (F content : jsstring) :
  declared F content = true <->
  exists p w q, content = p ++ w ++ q /\ declarationText F w.
Proof.
  unfold declared. rewrite test_true. split.
  - intros [p [q [e [-> M]]]].
    apply declaration_matches in M as [w [[A _] D]]. simpl in A.
    exists p, w, (rest e). now rewrite A.
  - intros [p [w [q [-> D]]]].
    destruct (@declaration_matches_intro F w (rev p) q D) as [e M].
    exists p, (w ++ q), e. auto.
Qed.



(** *** What a declaration text is made of *)

Lemma sameLetter_brace (p c : N) :
  sameLetter p c = true -> isBrace p = false -> isBrace c = false.
Proof.
  unfold sameLetter, isBrace, only, upperA, isLower, between, isAscii.
  rewrite andb_true_iff, N.eqb_eq, !orb_false_iff, !N.eqb_neq.
  intros [_ E] [P1 P2].
  destruct (N.leb_spec 97 c), (N.leb_spec c 122),
           (N.leb_spec 97 p), (N.leb_spec p 122); simpl in E; lia.
Qed.

Lemma isSpace_brace (c : N) : isSpace c = true -> isBrace c = false.
Proof.
  unfold isSpace, isBrace, only, between.
  rewrite !orb_true_iff, !andb_true_iff, !N.leb_le, !N.eqb_eq,
    orb_false_iff, !N.eqb_neq. lia.
Qed.

Lemma plainChar_brace (c : N) : plainChar c = true -> isBrace c = false.
Proof.
  unfold plainChar, isSyntaxChar, isBrace, only. simpl.
  rewrite andb_true_iff, negb_true_iff, !orb_false_iff.
  intros [_ H]. tauto.
Qed.

Lemma sameText_brace (s w : jsstring) :
  sameText s w = true ->
  forallb (fun c => negb (isBrace c)) s = true ->
  forallb (fun c => negb (isBrace c)) w = true.
Proof.
  revert w; induction s as [|a s IH]; intros [|c w]; simpl; try discriminate;
    auto.
  rewrite !andb_true_iff, !negb_true_iff. intros [L T] [A S].
  split; [eapply sameLetter_brace; eauto | auto].
Qed.

Lemma forallb_weaken {A} (f g : A -> bool) (l : list A) :
  (forall x, f x = true -> g x = true) ->
  forallb f l = true -> forallb g l = true.
Proof.
  intros H. rewrite !forallb_forall. auto.
Qed.

(** A declaration text for a name of plain characters holds no brace and
    ends in the opening parenthesis. *)
Lemma declarationText_shape (F w : jsstring) :
  forallb plainChar F = true ->
  declarationText F w ->
  forallb (fun c => negb (isBrace c)) w = true /\ last w 0%N = 40%N.
Proof.
  intros P [fn [ws1 [nm [ws2 [-> [T1 [_ [P1 [T3 P4]]]]]]]]].
  split.
  - rewrite !forallb_app. repeat (apply andb_true_iff; split).
    + eapply sameText_brace; [exact T1 | reflexivity].
    + eapply forallb_weaken; [|exact P1].
      intros x Hx. now rewrite (isSpace_brace _ Hx).
    + eapply sameText_brace; [exact T3|].
      eapply forallb_weaken; [|exact P].
      intros x Hx. now rewrite (plainChar_brace _ Hx).
    + eapply forallb_weaken; [|exact P4].
      intros x Hx. now rewrite (isSpace_brace _ Hx).
    + reflexivity.
    + reflexivity.
  - rewrite !app_assoc. apply last_last.
Qed.

(** *** Putting text in *)

Lemma app_three_split {A} (p w q a b : list A) :
  p ++ w ++ q = a ++ b ->
  (exists m, a = p ++ w ++ m /\ q = m ++ b) \/
  (exists m, p = a ++ m /\ b = m ++ w ++ q) \/
  (exists w1 w2, w = w1 ++ w2 /\ w1 <> [] /\ w2 <> [] /\
                 a = p ++ w1 /\ b = w2 ++ q).
Proof.
  intros E. apply app_eq_app in E as [m [[E1 E2] | [E1 E2]]].
  - right. left. exists m. auto.
  - apply app_eq_app in E2 as [n [[E3 E4] | [E3 E4]]].
    + destruct n as [|x n].
      * left. exists []. rewrite app_nil_r in E3. subst. simpl.
        rewrite app_nil_r. auto.
      * destruct m as [|y m].
        -- right. left. exists []. rewrite app_nil_r in E1. subst. simpl.
           rewrite app_nil_r. auto.
        -- right. right. exists (y :: m), (x :: n).
           repeat split; try discriminate; auto.
    + left. exists n. subst. auto.
Qed.

(** An occurrence of [w] outlives the insertion of [t] between [a] and [b]
    unless [w] lies across the cut. *)
Lemma occurrence_kept {A} (p w q a t b : list A) :
  p ++ w ++ q = a ++ b ->
  (forall w1 w2 q', w = w1 ++ w2 -> w1 <> [] -> w2 <> [] ->
                    b = w2 ++ q' -> False) ->
  exists p' q', a ++ t ++ b = p' ++ w ++ q'.
Proof.
  intros E S.
  destruct (app_three_split _ _ _ _ _ E)
    as [[m [-> ->]] | [[m [-> ->]] | [w1 [w2 [-> [N1 [N2 [-> ->]]]]]]]].
  - exists p, (m ++ t ++ b). now rewrite <- !app_assoc.
  - exists (a ++ t ++ m), q. now rewrite <- !app_assoc.
  - exfalso. eapply S; eauto.
Qed.

Lemma last_app_r {A} (l1 l2 : list A) (d : A) :
  l2 <> [] -> last (l1 ++ l2) d = last l2 d.
Proof.
  intros H. destruct (exists_last H) as [u [x ->]].
  now rewrite app_assoc, !last_last.
Qed.

(** A declaration outlives text put in before a closing brace. *)
Lemma declared_kept_before_brace (F a t b : jsstring) :
  forallb plainChar F = true ->
  declared F (a ++ 125%N :: b) = true ->
  declared F (a ++ t ++ 125%N :: b) = true.
Proof.
  intros P D. apply declared_spec in D as [p [w [q [E D]]]].
  apply declared_spec.
  destruct (@declarationText_shape F w P D) as [B _].
  destruct (@occurrence_kept _ p w q a t (125%N :: b)) as [p' [q' E']].
  - now symmetry.
  - intros w1 w2 q' -> _ N2 E2.
    destruct w2 as [|x w2]; [contradiction|]. injection E2 as <- _.
    rewrite forallb_app in B. apply andb_true_iff in B as [_ B].
    discriminate B.
  - exists p', w, q'. auto.
Qed.

(** A declaration outlives text put in before an export marker. *)
Lemma declared_kept_before_export (F a t b : jsstring) :
  forallb plainChar F = true ->
  declared F (a ++ exportMarker ++ b) = true ->
  declared F (a ++ t ++ exportMarker ++ b) = true.
Proof.
  intros P D. apply declared_spec in D as [p [w [q [E D]]]].
  apply declared_spec.
  destruct (@declarationText_shape F w P D) as [B L].
  destruct (@occurrence_kept _ p w q a t (exportMarker ++ b)) as [p' [q' E']].
  - now symmetry.
  - intros w1 w2 q' -> _ N2 E2.
    rewrite forallb_app in B. apply andb_true_iff in B as [_ B].
    rewrite (@last_app_r _ w1 w2 0%N N2) in L.
    unfold exportMarker in E2. simpl in E2.
    do 8 (destruct w2 as [|? w2];
          [ simpl in L; try discriminate L; congruence
          | simpl in E2; injection E2 as <- E2 ]).
    simpl in B. discriminate B.
  - exists p', w, q'. auto.
Qed.

(** *** The two insertions *)

(** [replace] with the block pattern puts the new text right before the
    brace that closes the first [declare global] block. *)
Lemma replaceFirst_block (t content : jsstring) :
  test globalBlockRegex content = true ->
  exists a b,
    content = a ++ 125%N :: b /\
    replaceFirst globalBlockRegex [Ref 1; Txt t; Ref 2] content =
      a ++ t ++ 125%N :: b.
Proof.
  unfold test, replaceFirst.
  destruct (search globalBlockRegex [] content) as [[c e]|] eqn:S;
    [intros _ | discriminate].
  apply search_some in S as [A [C [M _]]].
  remember (covered (Cursor [] content []) c) as gap eqn:Hg. clear Hg.
  destruct A as [A1 A2]. simpl in A1, A2. rewrite app_nil_r in A2.
  unfold globalBlockRegex in M.
  apply Matches_seq_inv in M as [d [M1 M2]].
  inv M1. inv M2.
  match goal with
  | [ H : Matches (Chr _) _ _ |- _ ] =>
      apply Matches_chr_inv in H as [x [Px [[X1 X2] X3]]]
  end.
  apply N.eqb_eq in Px. subst x.
  match goal with
  | [ H : Matches (Seq _ _) _ _ |- _ ] =>
      apply Matches_ahead in H as [g1 G]
  end.
  pose proof (covered_ahead G) as Cg. destruct G as [G1 G2].
  assert (Cx : covered (capture 1 c e0) e1 = [125%N])
    by (apply covered_ahead; split; assumption).
  exists (gap ++ g1), (rest e1). simpl in X1. split.
  - rewrite G1, X1, <- app_assoc. reflexivity.
  - unfold expand, hit_of, capture. cbn [groups caps map concat group].
    rewrite X3. cbn [capture caps group Nat.eqb rest].
    unfold capture in Cx. rewrite Cx, Cg, A2.
    rewrite rev_involutive, <- !app_assoc. simpl. reflexivity.
Qed.


Lemma lastIndexFrom_some (k : nat) (s sub : jsstring) (found : option nat) (i : nat) :
  lastIndexFrom k s sub found = Some i ->
  found = Some i \/ exists a b, s = a ++ sub ++ b /\ i = k + length a.
Proof.
  revert k found; induction s as [|x s IH]; intros k found; simpl.
  - destruct sub; simpl.
    + intros H. injection H as <-. right. exists [], []. simpl. split; [auto|lia].
    + auto.
  - intros H. apply IH in H as [H | [a [b [-> ->]]]].
    + destruct (startsWith sub (x :: s)) eqn:S; [|auto].
      injection H as <-. apply startsWith_spec in S as [t S].
      right. exists [], t. simpl. split; [exact S | lia].
    + right. exists (x :: a), b. simpl. split; [reflexivity | lia].
Qed.

Lemma insertStub_cases (stub : jsstring) (orElse : jsstring -> jsstring)
    (content : jsstring) :
  (exists a b, content = a ++ exportMarker ++ b /\
               insertStub stub orElse content = a ++ stub ++ exportMarker ++ b) \/
  insertStub stub orElse content = orElse content.
Proof.
  unfold insertStub, lastIndexOf.
  destruct (lastIndexFrom 0 content exportMarker None) as [i|] eqn:L; [|now right].
  left. apply lastIndexFrom_some in L as [L | [a [b [-> ->]]]]; [discriminate|].
  exists a, b. split; [reflexivity|]. unfold slice_to, slice_from. simpl.
  rewrite firstn_app, Nat.sub_diag, firstn_all. simpl. rewrite app_nil_r.
  rewrite skipn_app, Nat.sub_diag, skipn_all. reflexivity.
Qed.

Lemma declared_kept_append (F content t : jsstring) :
  declared F content = true -> declared F (content ++ t) = true.
Proof.
  rewrite !declared_spec. intros [p [w [q [-> D]]]].
  exists p, w, (q ++ t). now rewrite <- !app_assoc.
Qed.

Lemma declared_kept_prepend (F content t : jsstring) :
  declared F content = true -> declared F (t ++ content) = true.
Proof.
  rewrite !declared_spec. intros [p [w [q [-> D]]]].
  exists (t ++ p), w, q. now rewrite <- !app_assoc.
Qed.

Lemma declared_kept_insertStub (F stub content : jsstring) :
  forallb plainChar F = true ->
  declared F content = true ->
  (declared F (insertStub stub (fun content => content) content) = true) /\
  (forall t, declared F (insertStub stub (fun content => content ++ t) content) = true).
Proof.
  intros P D. split; [|intros t].
  - destruct (insertStub_cases stub (fun c => c) content)
      as [[a [b [-> ->]]] | ->]; [|exact D].
    now apply declared_kept_before_export.
  - destruct (insertStub_cases stub (fun c => c ++ t) content)
      as [[a [b [-> ->]]] | ->].
    + now apply declared_kept_before_export.
    + now apply declared_kept_append.
Qed.

Lemma sameText_refl (F : jsstring) :
  forallb plainChar F = true -> sameText F F = true.
Proof.
  induction F as [|c F IH]; simpl; [reflexivity|].
  rewrite andb_true_iff. intros [Pc P]. rewrite (IH P), andb_true_r.
  unfold sameLetter. unfold plainChar in Pc.
  apply andb_true_iff in Pc as [-> _]. now rewrite N.eqb_refl.
Qed.

(** The declaration line declares its name. *)
Lemma declLine_declares (F pre post : jsstring) :
  forallb plainChar F = true ->
  declared F (pre ++ declLine F ++ post) = true.
Proof.
  intros P. apply declared_spec.
  exists (pre ++ js "  "), (js "function" ++ js " " ++ F ++ [] ++ js "("),
    (js "message: string): void;" ++ LF ++ post).
  split.
  - unfold declLine. rewrite <- !app_assoc. reflexivity.
  - exists (js "function"), (js " "), F, []. repeat split.
    + discriminate.
    + now apply sameText_refl.
Qed.

(** The first step keeps what is declared and declares its name. *)
Lemma withMode_declared (F content : jsstring) :
  forallb plainChar F = true ->
  declared F (withMode F content) = true /\
  forall G, forallb plainChar G = true ->
            declared G content = true -> declared G (withMode F content) = true.
Proof.
  intros P. unfold withMode.
  destruct (test globalBlockRegex content) eqn:T.
  - destruct (@replaceFirst_block (declLine F) content T) as [a [b [E ->]]].
    split.
    + apply declared_kept_insertStub; [exact P|].
      apply declLine_declares. exact P.
    + intros G PG D. apply declared_kept_insertStub; [exact PG|].
      apply declared_kept_before_brace; [exact PG|]. now rewrite <- E.
  - split.
    + apply declared_kept_insertStub; [exact P|].
      unfold newGlobalBlock. rewrite <- !app_assoc.
      rewrite (app_assoc LF). apply declLine_declares. exact P.
    + intros G PG D. apply declared_kept_insertStub; [exact PG|].
      now apply declared_kept_prepend.
Qed.

(** The second step keeps what is declared, and declares [ALL] when it
    finds a [declare global] block to put the declaration in. *)
Lemma withALL_declared (content : jsstring) :
  (test globalBlockRegex content = true -> declared ALL (withALL content) = true) /\
  forall G, forallb plainChar G = true ->
            declared G content = true -> declared G (withALL content) = true.
Proof.
  unfold withALL. split.
  - intros T. rewrite T.
    destruct (@replaceFirst_block (declLine ALL) content T) as [a [b [E ->]]].
    apply declared_kept_insertStub; [reflexivity|].
    apply declLine_declares. reflexivity.
  - intros G PG D. apply declared_kept_insertStub; [exact PG|].
    destruct (test globalBlockRegex content) eqn:T; [|exact D].
    destruct (@replaceFirst_block (declLine ALL) content T) as [a [b [E ->]]].
    apply declared_kept_before_brace; [exact PG|]. now rewrite <- E.
Qed.

(** *** The [declare global] block *)

Lemma split_at_first (x : N) (l : list N) :
  In x l -> exists l1 l2, l = l1 ++ x :: l2 /\ forallb (except x) l1 = true.
Proof.
  induction l as [|y l IH]; [intros []|].
  intros H. destruct (N.eqb_spec y x) as [->|Ne].
  - exists [], l. auto.
  - destruct H as [H | H]; [contradiction|].
    destruct (IH H) as [l1 [l2 [-> F]]].
    exists (y :: l1), l2. split; [reflexivity|]. simpl. rewrite F.
    unfold except. apply N.eqb_neq in Ne. now rewrite Ne.
Qed.

Lemma Matches_lit_intro (s b r : list N) cp :
  Matches (lit s) (Cursor b (s ++ r) cp) (Cursor (rev s ++ b) r cp).
Proof.
  revert b; induction s as [|x s IH]; intros b; simpl.
  - constructor.
  - rewrite <- app_assoc. simpl.
    eapply M_Seq; [constructor; apply N.eqb_refl | apply IH].
Qed.

Lemma hasBlock_spec (content : jsstring) :
  test globalBlockRegex content = true <-> hasBlock content.
Proof.
  rewrite test_true. split.
  - intros [p [q [e [-> M]]]]. unfold globalBlockRegex in M.
    apply Matches_seq_inv in M as [d [M1 M2]].
    apply Matches_group_inv in M1 as [d0 [M1 ->]].
    apply Matches_seq_inv in M1 as [d' [L S]].
    apply Matches_lit in L as [[L _] _]. simpl in L.
    apply Matches_ahead in S as [m [S _]].
    apply Matches_group_inv in M2 as [e0 [M2 ->]].
    apply Matches_chr_inv in M2 as [x [Px [[X _] _]]].
    apply N.eqb_eq in Px. subst x. simpl in X.
    exists p, (m ++ 125%N :: rest e0). split.
    + unfold blockOpening. rewrite L, S, X. reflexivity.
    + apply in_elt.
  - intros [p [q [-> I]]].
    apply split_at_first in I as [m [q' [-> F]]].
    exists p, (blockOpening ++ m ++ 125%N :: q'). eexists. split; [reflexivity|].
    unfold globalBlockRegex.
    eapply M_Seq.
    + apply M_Group. eapply M_Seq.
      * apply Matches_lit_intro.
      * apply Matches_star_chr_intro. exact F.
    + apply M_Group. unfold capture. simpl. apply M_Chr. reflexivity.
Qed.

Lemma hasBlock_kept_append (content t : jsstring) :
  hasBlock content -> hasBlock (content ++ t).
Proof.
  intros [p [q [-> I]]]. exists p, (q ++ t). split.
  - now rewrite <- !app_assoc.
  - apply in_or_app. now left.
Qed.

Lemma hasBlock_kept_before_brace (a t b : jsstring) :
  hasBlock (a ++ 125%N :: b) -> hasBlock (a ++ t ++ 125%N :: b).
Proof.
  intros [p [q [E I]]]. symmetry in E.
  destruct (app_three_split _ _ _ _ _ E)
    as [[m [-> ->]] | [[m [-> E2]] | [w1 [w2 [Ew [N1 [N2 [-> E2]]]]]]]].
  - exists p, (m ++ t ++ 125%N :: b). split.
    + now rewrite <- !app_assoc.
    + rewrite !in_app_iff. right. right. now left.
  - exists (a ++ t ++ m), q. split; [|exact I].
    rewrite E2, <- !app_assoc. reflexivity.
  - exfalso. destruct w2 as [|x w2]; [contradiction|]. injection E2 as <- _.
    assert (B : In 125%N blockOpening) by (rewrite Ew; apply in_elt).
    vm_compute in B. intuition discriminate.
Qed.

Lemma hasBlock_kept_before_export (a t b : jsstring) :
  hasBlock (a ++ exportMarker ++ b) -> hasBlock (a ++ t ++ exportMarker ++ b).
Proof.
  intros [p [q [E I]]]. symmetry in E.
  destruct (app_three_split _ _ _ _ _ E)
    as [[m [-> ->]] | [[m [-> E2]] | [w1 [w2 [Ew [N1 [N2 [-> E2]]]]]]]].
  - exists p, (m ++ t ++ exportMarker ++ b). split.
    + now rewrite <- !app_assoc.
    + rewrite !in_app_iff in *. tauto.
  - exists (a ++ t ++ m), q. split; [|exact I].
    rewrite E2, <- !app_assoc. reflexivity.
  - exfalso. unfold blockOpening in Ew. unfold exportMarker in E2.
    simpl in Ew, E2.
    do 17 (destruct w1 as [|? w1];
           [ simpl in Ew; subst w2; try congruence; discriminate E2
           | simpl in Ew; try discriminate Ew; injection Ew as <- Ew ]).
Qed.

Lemma hasBlock_kept_insertStub (F content : jsstring) :
  hasBlock content ->
  hasBlock (insertStub (runtimeImpl F) (fun content => content) content) /\
  forall t, hasBlock (insertStub (runtimeImpl F) (fun content => content ++ t) content).
Proof.
  intros H. split; [|intros t].
  - destruct (insertStub_cases (runtimeImpl F) (fun c => c) content)
      as [[a [b [-> ->]]] | ->]; [|exact H].
    now apply hasBlock_kept_before_export.
  - destruct (insertStub_cases (runtimeImpl F) (fun c => c ++ t) content)
      as [[a [b [-> ->]]] | ->].
    + now apply hasBlock_kept_before_export.
    + now apply hasBlock_kept_append.
Qed.

(** After the first step there is a block. *)
Lemma withMode_hasBlock (F content : jsstring) : hasBlock (withMode F content).
Proof.
  unfold withMode. apply hasBlock_kept_insertStub.
  destruct (test globalBlockRegex content) eqn:T.
  - destruct (@replaceFirst_block (declLine F) content T) as [a [b [E ->]]].
    apply hasBlock_kept_before_brace. rewrite <- E. now apply hasBlock_spec.
  - exists LF, (LF ++ declLine F ++ line "}" ++ content). split.
    + unfold newGlobalBlock, line, blockOpening. now rewrite <- !app_assoc.
    + unfold line. rewrite !in_app_iff. right. right. left. vm_compute. auto.
Qed.



(** ** The mode registry *)

Lemma default_declares_ALL :
  declared ALL defaultContent = true /\
  test allGlobalRegex defaultContent = true /\
  includes defaultContent (declLine ALL) = true /\
  stubbed ALL defaultContent = true.
Proof. vm_compute. auto. Qed.

Lemma plain_ALL : forallb plainChar ALL = true.
Proof. reflexivity. Qed.

Section RegistryFacts.

Variable toUpperCase : jsstring -> jsstring.

Hypothesis toUpperCase_ascii :
  forall s, forallb isAscii s = true -> toUpperCase s = map upperA s.

(** C10: when the artifact is not on disk and the mode upper-cases to
    [ALL], the default content already holds the [ALL] declaration and
    stub, both checks pass, nothing is written, and the artifact is still
    absent when the call returns. *)
Theorem absent_artifact_mode_all_writes_nothing (mode : jsstring) (w : world) :
  file w = None ->
  toUpperCase mode = js "ALL" ->
  (includes defaultContent (declLine (js "ALL")) = true /\
   includes defaultContent (runtimeImpl (js "ALL")) = true) /\
  (test (globalDeclRegex (js "ALL")) defaultContent = true /\
   test allGlobalRegex defaultContent = true) /\
  ensureModeFunction toUpperCase mode w = (Returned tt, w) /\
  file (snd (ensureModeFunction toUpperCase mode w)) = None /\
  writes (snd (ensureModeFunction toUpperCase mode w)) = writes w.
Proof.
  intros Hf Hu.
  destruct default_declares_ALL as [D [A [I S]]].
  unfold declared, stubbed in *. fold ALL in *.
  assert (E : ensureModeFunction toUpperCase mode w = (Returned tt, w)).
  { unfold ensureModeFunction, bind, catch, readFileSync, ret.
    rewrite Hf, Hu. fold ALL. rewrite plain_ALL. cbn [negb].
    rewrite D. cbn [negb]. rewrite A. reflexivity. }
  rewrite E. simpl. auto.
Qed.

(** C5 at a hand-written artifact: the first call for "dev" puts an [ALL]
    stub before the export marker, and the second call puts in another. *)
Theorem second_call_adds_another_stub :
  let w0 := World (Some bareModule) true [] [] in
  let once := snd (ensureModeFunction toUpperCase (js "dev") w0) in
  let twice := snd (ensureModeFunction toUpperCase (js "dev") once) in
  file once =
    Some (line "function DEV(message: string): void;" ++
          runtimeImpl ALL ++ line "export {};") /\
  file twice =
    Some (line "function DEV(message: string): void;" ++
          runtimeImpl ALL ++ runtimeImpl ALL ++ line "export {};") /\
  file twice <> file once /\
  length (writes once) = 1 /\ length (writes twice) = 2.
Proof.
  assert (U : toUpperCase (js "dev") = js "DEV")
    by (now rewrite toUpperCase_ascii).
  unfold ensureModeFunction. rewrite U. vm_compute.
  repeat split; try reflexivity. discriminate.
Qed.

(** C4 at a hand-written artifact: after registering "dev" the artifact is
    as it was, with [ALL] neither declared nor stubbed. *)
Theorem registered_run_leaves_ALL_out :
  let w0 := World (Some bareArtifact) true [] [] in
  let final := snd (registerAll toUpperCase [js "dev"] w0) in
  fst (registerAll toUpperCase [js "dev"] w0) = Returned tt /\
  file final = Some bareArtifact /\
  declared (js "DEV") bareArtifact = true /\
  declared ALL bareArtifact = false /\
  stubbed ALL bareArtifact = false.
Proof.
  assert (U : toUpperCase (js "dev") = js "DEV")
    by (now rewrite toUpperCase_ascii).
  unfold registerAll, ensureModeFunction. rewrite U. vm_compute.
  repeat split; reflexivity.
Qed.

(** [ensureModeFunction] as a function of what it reads. *)
Lemma ensureModeFunction_unfold (mode : jsstring) (w : world) :
  ensureModeFunction toUpperCase mode w =
  let F := toUpperCase mode in
  let c0 := artifact w in
  let said1 := js "Added " ++ F ++ js " global function to debug.ts" in
  let said2 := js "Added ALL global function to debug.ts" in
  if negb (forallb plainChar F) then (Beyond, w)
  else if declared F c0 then
    if declared ALL c0 then (Returned tt, w)
    else match file w with
         | None => (Thrown ReadFailed, w)
         | Some c =>
             if writable w
             then (Returned tt,
                   World (Some (withALL c)) true (withALL c :: writes w)
                         (said2 :: console w))
             else (Thrown WriteFailed, w)
         end
  else if writable w then
    let c1 := withMode F c0 in
    if declared ALL c1
    then (Returned tt, World (Some c1) true (c1 :: writes w) (said1 :: console w))
    else (Returned tt,
          World (Some (withALL c1)) true (withALL c1 :: c1 :: writes w)
                (said2 :: said1 :: console w))
  else (Thrown WriteFailed, w).
Proof.
  unfold ensureModeFunction, bind, catch, readFileSync, writeFileSync,
    console_log, ret, beyond, artifact, declared, withMode, withALL.
  change allGlobalRegex with (globalDeclRegex ALL).
  cbv zeta.
  set (F := toUpperCase mode).
  destruct (file w) as [c|] eqn:Fw; cbv beta iota;
    (destruct (forallb plainChar F); cbn [negb]; cbv beta iota;
     [|reflexivity]).
  - destruct (test (globalDeclRegex F) c); cbn [negb]; cbv beta iota.
    + destruct (test (globalDeclRegex ALL) c); cbn [negb]; cbv beta iota;
        [reflexivity|].
      rewrite Fw. destruct (writable w); reflexivity.
    + destruct (writable w); cbv beta iota; [|reflexivity].
      cbn [file writable writes console].
      match goal with
      | [ |- context [test (globalDeclRegex ALL) ?x] ] =>
          destruct (test (globalDeclRegex ALL) x)
      end; reflexivity.
  - destruct (test (globalDeclRegex F) defaultContent); cbn [negb];
      cbv beta iota.
    + destruct (test (globalDeclRegex ALL) defaultContent); cbn [negb];
        cbv beta iota; [reflexivity|].
      rewrite Fw. reflexivity.
    + destruct (writable w); cbv beta iota; [|reflexivity].
      cbn [file writable writes console].
      match goal with
      | [ |- context [test (globalDeclRegex ALL) ?x] ] =>
          destruct (test (globalDeclRegex ALL) x)
      end; reflexivity.
Qed.

(** A call that returns leaves every declaration in place and leaves its
    own mode declared. *)
Theorem returned_call_declares (mode : jsstring) (w w' : world) :
  ensureModeFunction toUpperCase mode w = (Returned tt, w') ->
  declared (toUpperCase mode) (artifact w') = true /\
  forall G, forallb plainChar G = true ->
            declared G (artifact w) = true -> declared G (artifact w') = true.
Proof.
  rewrite ensureModeFunction_unfold. cbv zeta.
  destruct (forallb plainChar (toUpperCase mode)) eqn:P; simpl; [|discriminate].
  destruct (declared (toUpperCase mode) (artifact w)) eqn:D.
  - destruct (declared ALL (artifact w)) eqn:A.
    + intros H. injection H as <-. auto.
    + unfold artifact at 1 2. destruct (file w) as [c|] eqn:Fw; [|discriminate].
      destruct (writable w); [|discriminate].
      intros H. injection H as <-. unfold artifact in *. rewrite Fw in *. simpl.
      split; [now apply withALL_declared | apply withALL_declared].
  - destruct (writable w); [|discriminate].
    destruct (@withMode_declared (toUpperCase mode) (artifact w) P) as [N K].
    destruct (declared ALL (withMode (toUpperCase mode) (artifact w))) eqn:A;
      intros H; injection H as <-; unfold artifact at 1 3; simpl.
    + auto.
    + split; [now apply withALL_declared|].
      intros G PG DG. apply withALL_declared; auto.
Qed.


(** A call that returns leaves [ALL] declared, except from an artifact
    that declares the mode in question but neither [ALL] nor any
    [declare global] block. *)
Theorem returned_call_declares_ALL (mode : jsstring) (w w' : world) :
  ensureModeFunction toUpperCase mode w = (Returned tt, w') ->
  declared ALL (artifact w) = true \/ hasBlock (artifact w) \/
  declared (toUpperCase mode) (artifact w) = false ->
  declared ALL (artifact w') = true.
Proof.
  rewrite ensureModeFunction_unfold. cbv zeta.
  destruct (forallb plainChar (toUpperCase mode)) eqn:P; simpl; [|discriminate].
  destruct (declared (toUpperCase mode) (artifact w)) eqn:D.
  - destruct (declared ALL (artifact w)) eqn:A.
    + intros H _. injection H as <-. exact A.
    + intros H C.
      destruct (file w) as [c|] eqn:Fw; [|discriminate H].
      destruct (writable w); [|discriminate H].
      injection H as <-.
      destruct C as [C | [C | C]]; try discriminate C.
      unfold artifact in C |- *. rewrite Fw in C. cbn [file].
      apply (proj1 (withALL_declared c)). now apply hasBlock_spec.
  - destruct (writable w); [|discriminate].
    destruct (declared ALL (withMode (toUpperCase mode) (artifact w))) eqn:A;
      intros H _; injection H as <-; unfold artifact at 1; cbn [file].
    + exact A.
    + apply (proj1 (withALL_declared _)). apply hasBlock_spec.
      apply withMode_hasBlock.
Qed.

(** A second call for the same mode changes nothing once [ALL] is
    declared. *)
Theorem second_call_idle_once_ALL_declared (mode : jsstring) (w w1 : world) :
  ensureModeFunction toUpperCase mode w = (Returned tt, w1) ->
  declared ALL (artifact w1) = true ->
  ensureModeFunction toUpperCase mode w1 = (Returned tt, w1).
Proof.
  intros E A. destruct (returned_call_declares _ _ E) as [D _].
  assert (P : forallb plainChar (toUpperCase mode) = true).
  { rewrite ensureModeFunction_unfold in E. cbv zeta in E.
    destruct (forallb plainChar (toUpperCase mode)); [reflexivity|discriminate]. }
  rewrite ensureModeFunction_unfold. cbv zeta. now rewrite P, D, A.
Qed.

(** Registering a mode twice is registering it once, for every artifact
    but the kind [returned_call_declares_ALL] sets apart. *)
Lemma second_call_idle_under_proviso (mode : jsstring) (w w1 : world) :
  ensureModeFunction toUpperCase mode w = (Returned tt, w1) ->
  declared ALL (artifact w) = true \/ hasBlock (artifact w) \/
  declared (toUpperCase mode) (artifact w) = false ->
  ensureModeFunction toUpperCase mode w1 = (Returned tt, w1).
Proof.
  intros E H. apply (second_call_idle_once_ALL_declared _ _ E).
  exact (returned_call_declares_ALL _ _ E H).
Qed.

End RegistryFacts.

(** ** The statements at concrete inputs *)

Lemma In_spaced_paren (s : jsstring) : spacedCallPattern s -> In 40%N s.
Proof.
  intros [pre [name [ws [post [_ [_ ->]]]]]].
  rewrite !in_app_iff. right. right. right. left. now left.
Qed.

Lemma adjacent_name_char (s : jsstring) :
  adjacentCallPattern s ->
  exists a x b, s = a ++ x :: 40%N :: b /\ isNameChar x = true.
Proof.
  intros [pre [name [post [Nm ->]]]].
  assert (K : forall t, forallb isNameChar t = true -> t <> [] ->
                exists u x, t = u ++ [x] /\ isNameChar x = true).
  { intros t Ht Hn. destruct (exists_last Hn) as [u [x ->]].
    exists u, x. split; [reflexivity|].
    rewrite forallb_app in Ht. apply andb_true_iff in Ht as [_ Ht].
    simpl in Ht. now rewrite andb_true_r in Ht. }
  destruct name as [|c t]; [discriminate|]. simpl in Nm.
  apply andb_true_iff in Nm as [U T].
  destruct (K (c :: t)) as [u [x [E X]]].
  - simpl. rewrite T. unfold isNameChar. now rewrite U.
  - discriminate.
  - exists (pre ++ u), x, post. split; [|exact X].
    rewrite E, <- !app_assoc. reflexivity.
Qed.

Lemma ends_with_rev (id pre ext : jsstring) :
  id = pre ++ ext -> startsWith (rev ext) (rev id) = true.
Proof.
  intros ->. rewrite rev_app_distr. apply startsWith_spec. eauto.
Qed.



Lemma all_call_always_logged_witness :
  let h := Hit (js "ALL(3)") [(2, js "3"); (1, js "ALL")] in
  rewrite asciiUpperCase (js "prod") (js "x;ALL(3);") =
    rendered (asciiUpperCase (js "prod")) [Kept (js "x;")] ++
    (js "console.log(" ++ js "3" ++ js ")") ++
    rendered (asciiUpperCase (js "prod")) [Kept (js ";")].
Proof.
  intros h.
  refine (proj1 (proj2 (proj2 (proj2
    (@all_call_always_logged asciiUpperCase
       (js "prod") (js "x;ALL(3);") [Kept (js "x;")] [Kept (js ";")] h _ _))))).
  - assert (E : callSites (js "x;ALL(3);") =
                [Kept (js "x;")] ++ Found h :: [Kept (js ";")])
      by (vm_compute; reflexivity).
    rewrite <- E. apply callSites_cutting.
  - vm_compute. reflexivity.
Defined.

(** C2 as stated fails: an [ALL] call written inside the argument text of
    a call that is deleted is deleted with it. *)
Lemma nested_ALL_call_is_deleted :
  callSites (js "DEBUG(" ++ js "ALL(1)" ++ js ")") =
    [Kept []; Found (Hit (js "DEBUG(ALL(1))") [(2, js "ALL(1)"); (1, js "DEBUG")]);
     Kept []] /\
  rewrite asciiUpperCase (js "dev") (js "DEBUG(" ++ js "ALL(1)" ++ js ")") = [].
Proof. vm_compute. split; reflexivity. Qed.

Lemma scenario_dev_debug_all_witness :
  rewrite asciiUpperCase (js "dev")
    (js "DEV(" ++ quoted "hello" ++ js "); DEBUG(" ++ quoted "hi" ++
     js "); ALL(" ++ quoted "always" ++ js ");") =
  js "console.log(" ++ quoted "hello" ++ js "); ; console.log(" ++
  quoted "always" ++ js ");".
Proof.
  exact (proj1 (@scenario_dev_debug_all asciiUpperCase asciiUpperCase_ascii)).
Defined.


(** A Mode Name need not be a whole identifier: after a dollar sign or a
    letter outside ASCII, which are no word characters for the pattern, it
    begins a call site. *)
Example name_inside_identifier :
  rewrite asciiUpperCase (js "dev") (js "$DEV(1)") = js "$console.log(1)" /\
  rewrite asciiUpperCase (js "dev") ([233%N] ++ js "DEV(1)") =
    [233%N] ++ js "console.log(1)".
Proof. vm_compute. split; reflexivity. Qed.

(** A name inside a longer word begins no call site; a name after a dot
    does. *)
Example word_boundary :
  rewrite asciiUpperCase (js "dev") (js "aDEV(1) a.DEV(1)") =
  js "aDEV(1) a.console.log(1)".
Proof. vm_compute. reflexivity. Qed.

(** A call written inside the argument text of another belongs to that
    call site and shares its lot. *)
Example call_inside_call :
  callSites (js "DEBUG(ALL(1))") =
    [Kept []; Found (Hit (js "DEBUG(ALL(1))") [(2, js "ALL(1)"); (1, js "DEBUG")]);
     Kept []] /\
  rewrite asciiUpperCase (js "dev") (js "DEBUG(ALL(1))") = [] /\
  rewrite asciiUpperCase (js "debug") (js "DEBUG(ALL(1))") =
    js "console.log(ALL(1))".
Proof. vm_compute. repeat split; reflexivity. Qed.

(** An unclosed call does not keep a later call from being rewritten. *)
Example unclosed_call_then_call :
  rewrite asciiUpperCase (js "dev") (js "DEV(a; ALL(b)") =
  js "DEV(a; console.log(b)".
Proof. vm_compute. reflexivity. Qed.




Lemma no_call_pattern_no_change_witness :
  rewrite asciiUpperCase (js "dev") (js "const x = 1;") = js "const x = 1;" /\
  changed asciiUpperCase (js "dev") (js "const x = 1;") = false /\
  forall id, transform asciiUpperCase (js "dev") (js "const x = 1;") id = None.
Proof.
  refine (@no_call_pattern_no_change asciiUpperCase (js "dev") (js "const x = 1;") _).
  intros H. apply In_spaced_paren in H. simpl in H. intuition discriminate.
Defined.

(** C8 as stated fails: the text [DEV (1)] holds no Mode Name directly
    followed by a parenthesis, and yet it is changed. *)
Lemma spaced_call_is_changed :
  ~ adjacentCallPattern (js "DEV (1)") /\
  changed asciiUpperCase (js "dev") (js "DEV (1)") = true /\
  rewrite asciiUpperCase (js "dev") (js "DEV (1)") = js "console.log(1)".
Proof.
  split; [|vm_compute; split; reflexivity].
  intros H. apply adjacent_name_char in H as [a [x [b [E X]]]].
  vm_compute in E.
  do 7 (destruct a as [|? a];
        [ simpl in E; try discriminate E; injection E; intros; subst;
          discriminate
        | simpl in E; injection E as <- E ]).
  destruct a; discriminate E.
Qed.

Lemma other_files_and_artifact_unchanged_witness :
  transform asciiUpperCase (js "dev") (js "DEV(1)") (js "notes.md") = None.
Proof.
  refine (@other_files_and_artifact_unchanged asciiUpperCase
            (js "dev") (js "DEV(1)") (js "notes.md") _).
  left. intros [pre [ext [I E]]]. apply ends_with_rev in E.
  unfold supportedExtensions in I. simpl in I.
  destruct I as [<- | [<- | [<- | [<- | []]]]]; vm_compute in E; discriminate E.
Defined.

Lemma absent_artifact_mode_all_writes_nothing_witness :
  ensureModeFunction asciiUpperCase (js "all") (World None true [] []) =
  (Returned tt, World None true [] []).
Proof.
  refine (proj1 (proj2 (proj2
    (@absent_artifact_mode_all_writes_nothing asciiUpperCase
       (js "all") (World None true [] []) _ _)))).
  - reflexivity.
  - reflexivity.
Defined.

Lemma second_call_adds_another_stub_witness :
  file (snd (ensureModeFunction asciiUpperCase (js "dev")
          (snd (ensureModeFunction asciiUpperCase (js "dev")
                  (World (Some bareModule) true [] []))))) =
  Some (line "function DEV(message: string): void;" ++
        runtimeImpl ALL ++ runtimeImpl ALL ++ line "export {};").
Proof.
  exact (proj1 (proj2 (@second_call_adds_another_stub asciiUpperCase asciiUpperCase_ascii))).
Defined.

Lemma registered_run_leaves_ALL_out_witness :
  file (snd (registerAll asciiUpperCase [js "dev"]
               (World (Some bareArtifact) true [] []))) = Some bareArtifact /\
  declared ALL bareArtifact = false.
Proof.
  pose proof (@registered_run_leaves_ALL_out asciiUpperCase asciiUpperCase_ascii) as H.
  exact (conj (proj1 (proj2 H)) (proj1 (proj2 (proj2 (proj2 H))))).
Defined.

(** ** Further facts: the mode registry *)










(** X9: the registry takes a name of plain characters for declared
    exactly when the content holds, anywhere, the word function in any
    letter case, white space, the name in any letter case, white space if
    any, and an opening parenthesis. *)
Theorem declared_iff_declaration_text (F content : jsstring) :
  forallb plainChar F = true ->
  (declared F content = true <->
   exists p w q, content = p ++ w ++ q /\ declarationText F w).
Proof. intros _. apply declared_spec. Qed.

(** X10: the registry finds a [declare global] block exactly when the
    content holds the opening of one with a closing brace anywhere after
    it. *)
Theorem block_test_iff_block_opening (content : jsstring) :
  test globalBlockRegex content = true <-> hasBlock content.
Proof. apply hasBlock_spec. Qed.

Section RegistryMore.

Variable toUpperCase : jsstring -> jsstring.



(** X4: for a mode whose upper-cased name has plain characters only,
    registering it twice is registering it once, provided the artifact
    declared [ALL], or had a [declare global] block, or did not declare
    the mode yet. *)
Theorem second_call_idle (mode : jsstring) (w w1 : world) :
  forallb plainChar (toUpperCase mode) = true ->
  ensureModeFunction toUpperCase mode w = (Returned tt, w1) ->
  declared ALL (artifact w) = true \/ hasBlock (artifact w) \/
  declared (toUpperCase mode) (artifact w) = false ->
  ensureModeFunction toUpperCase mode w1 = (Returned tt, w1).
Proof.
  intros _ E H.
  apply (@second_call_idle_once_ALL_declared toUpperCase mode w w1 E).
  exact (@returned_call_declares_ALL toUpperCase mode w w1 E H).
Qed.



(** X6: with a writable artifact and a mode name of plain characters the call
    returns. *)
Theorem writable_call_returns (mode : jsstring) (w : world) :
  forallb plainChar (toUpperCase mode) = true ->
  writable w = true ->
  exists w', ensureModeFunction toUpperCase mode w = (Returned tt, w').
Proof.
  intros P W. rewrite ensureModeFunction_unfold. cbv zeta.
  rewrite P, W. cbn [negb].
  destruct (declared (toUpperCase mode) (artifact w)) eqn:D.
  - destruct (declared ALL (artifact w)) eqn:A; [eauto|].
    destruct (file w) as [c|] eqn:Fw; [eauto|].
    exfalso. unfold artifact in A. rewrite Fw in A.
    destruct default_declares_ALL as [A' _]. congruence.
  - destruct (declared ALL (withMode (toUpperCase mode) (artifact w))); eauto.
Qed.



End RegistryMore.

(** ** Further facts: the call rewriter *)

Lemma sourceFile_complete (id : jsstring) :
  hasSupportedExtension id -> test sourceFileRegex id = true.
Proof.
  intros [pre [ext [I ->]]]. apply test_true.
  exists pre, ext. unfold supportedExtensions in I. simpl in I.
  destruct I as [<- | [<- | [<- | [<- | []]]]];
    eexists; (split; [reflexivity|]); apply run_sound; vm_compute;
    left; reflexivity.
Qed.

Lemma rendered_kept_only (m : jsstring) (segs : list segment) :
  (forall h, ~ In (Found h) segs) -> rendered m segs = sources segs.
Proof.
  induction segs as [|[t|h] segs IH]; intros H.
  - reflexivity.
  - unfold rendered, sources in *. simpl. f_equal. apply IH.
    intros h I. apply (H h). now right.
  - exfalso. apply (H h). now left.
Qed.

Lemma first_found (segs : list segment) (h : hit) :
  In (Found h) segs ->
  exists ks h0 more,
    segs = ks ++ Found h0 :: more /\ (forall k, ~ In (Found k) ks).
Proof.
  induction segs as [|[t|h1] segs IH]; [intros []| |].
  - intros [H | H]; [discriminate|].
    destruct (IH H) as [ks [h0 [more [-> K]]]].
    exists (Kept t :: ks), h0, more. split; [reflexivity|].
    intros k [C | C]; [discriminate | now apply (K k)].
  - intros _. exists [], h1, segs. split; [reflexivity|]. intros k [].
Qed.

(** Opening parentheses in a text. *)
Lemma count_paren_app (a b : jsstring) :
  count_occ N.eq_dec (a ++ b) 40%N =
  count_occ N.eq_dec a 40%N + count_occ N.eq_dec b 40%N.
Proof. apply count_occ_app. Qed.

Lemma rendered_parens (m code : jsstring) (segs : list segment) :
  (forall h, In (Found h) segs -> In (Found h) (callSites code)) ->
  count_occ N.eq_dec (rendered m segs) 40%N <=
    count_occ N.eq_dec (sources segs) 40%N /\
  ((exists h, In (Found h) segs /\ replacer m (modeName h) (args h) = []) ->
   count_occ N.eq_dec (rendered m segs) 40%N <
     count_occ N.eq_dec (sources segs) 40%N).
Proof.
  induction segs as [|g segs IH]; intros H.
  - split; [apply Nat.le_refl | intros [h [[] _]]].
  - destruct IH as [IH1 IH2]; [intros h I; apply H; now right|].
    unfold rendered, sources in *. cbn [map concat].
    rewrite !count_paren_app.
    destruct g as [t|h]; cbn [render source].
    + split; [lia|]. intros [k [[C | C] E]]; [discriminate|].
      assert (L := IH2 (ex_intro _ k (conj C E))). lia.
    + destruct (@found_callSite code h (H h (or_introl eq_refl)))
        as [ws [W [Nm Ws]]].
      assert (P : count_occ N.eq_dec
                    (replacer m (modeName h) (args h)) 40%N
                  <= count_occ N.eq_dec (whole h) 40%N /\
                  (replacer m (modeName h) (args h) = [] ->
                   count_occ N.eq_dec
                     (replacer m (modeName h) (args h)) 40%N
                   < count_occ N.eq_dec (whole h) 40%N)).
      { rewrite W, !count_paren_app. unfold replacer, consoleLog.
        destruct (str_eqb (modeName h) ALL);
          [|destruct (str_eqb (modeName h) m)];
          rewrite ?count_paren_app; cbn; split; try lia; discriminate. }
      destruct P as [P1 P2]. split; [lia|].
      intros [k [[C | C] E]].
      * injection C as ->. specialize (P2 E). lia.
      * assert (L := IH2 (ex_intro _ k (conj C E))). lia.
Qed.

(** X13: the pieces the global scan cuts the code into, call sites and the
    text between them, put together in order are the code. *)
Theorem call_sites_cover_code (code : jsstring) :
  sources (callSites code) = code.
Proof. apply callSites_sources. Qed.

Section RewriterMore.

Variable toUpperCase : jsstring -> jsstring.

(** X11: a file with a supported extension whose path does not hold [debug.ts]
    is always put through the rewriter: the transform hands back the
    rewritten text when it differs from the code, and nothing otherwise. *)
Theorem supported_file_is_rewritten (mode code id : jsstring) :
  hasSupportedExtension id ->
  ~ namesArtifact id ->
  transform toUpperCase mode code id =
    if changed toUpperCase mode code
    then Some (rewrite toUpperCase mode code)
    else None.
Proof.
  intros E A. unfold transform, changed.
  rewrite (sourceFile_complete E). cbn [negb].
  destruct (includes id (js "debug.ts")) eqn:I; [|reflexivity].
  exfalso. apply A. apply includes_spec in I. exact I.
Qed.

(** X12: the rewrite differs from the code exactly when the code has at least
    one call site: a call site never comes out as it went in. *)
Theorem changed_iff_call_site (mode code : jsstring) :
  changed toUpperCase mode code = true <->
  exists h, In (Found h) (callSites code).
Proof.
  unfold changed. rewrite negb_true_iff, str_eqb_neq, rewrite_rendered.
  split.
  - intros Ne.
    destruct (existsb (fun g => match g with Found _ => true | Kept _ => false end)
                (callSites code)) eqn:X.
    + apply existsb_exists in X as [[t|h] [I X]]; [discriminate | eauto].
    + exfalso. apply Ne. rewrite rendered_kept_only.
      * apply callSites_sources.
      * intros h I.
        assert (Y : existsb (fun g => match g with Found _ => true | Kept _ => false end)
                      (callSites code) = true)
          by (apply existsb_exists; exists (Found h); auto).
        congruence.
  - intros [h I] Eq.
    destruct (@rendered_parens (toUpperCase mode) code (callSites code))
      as [_ Lt]; [auto|].
    rewrite callSites_sources, Eq in Lt.
    destruct (first_found _ _ I) as [ks [h0 [more [S K]]]].
    assert (I0 : In (Found h0) (callSites code))
      by (rewrite S; apply in_elt).
    destruct (@found_callSite code h0 I0) as [ws [W [Nm _]]].
    pose proof (callSites_sources code) as Src.
    rewrite S in Eq, Src. rewrite rendered_app in Eq. rewrite sources_app in Src.
    rewrite (@rendered_kept_only (toUpperCase mode) ks K) in Eq.
    rewrite <- Src in Eq. apply app_inv_head in Eq.
    unfold rendered, sources in Eq. cbn [map concat render source] in Eq.
    destruct (replacer (toUpperCase mode) (modeName h0) (args h0)) eqn:R.
    + assert (L : count_occ N.eq_dec code 40%N < count_occ N.eq_dec code 40%N)
        by (apply Lt; exists h0; auto).
      lia.
    + rewrite W in Eq. destruct (modeName h0) as [|c nm]; [discriminate|].
      simpl in Nm, Eq. apply andb_true_iff in Nm as [U _].
      injection Eq as -> _.
      unfold replacer, consoleLog in R.
      destruct (str_eqb (c :: nm) ALL);
        [|destruct (str_eqb (c :: nm) (toUpperCase mode))];
        try discriminate; injection R as <- _; discriminate U.
Qed.

End RewriterMore.

(** ** Further facts: project set-up *)

Lemma existsb_str_eqb (x : jsstring) (l : list jsstring) :
  existsb (str_eqb x) l = true <-> In x l.
Proof.
  rewrite existsb_exists. split.
  - intros [y [I E]]. apply str_eqb_eq in E. now subst.
  - intros I. exists x. split; [exact I | apply str_eqb_refl].
Qed.

Lemma addAll_in (acc l : list jsstring) (x : jsstring) :
  In x (addAll acc l) <-> In x acc \/ In x l.
Proof.
  revert acc; induction l as [|y l IH]; intros acc; simpl; [tauto|].
  rewrite IH. destruct (existsb (str_eqb y) acc) eqn:E.
  - apply existsb_str_eqb in E. split; [tauto|].
    intros [H | [<- | H]]; auto.
  - rewrite in_app_iff. simpl. tauto.
Qed.

Lemma addAll_NoDup (acc l : list jsstring) :
  NoDup acc -> NoDup (addAll acc l).
Proof.
  revert acc; induction l as [|y l IH]; intros acc H; simpl; [exact H|].
  apply IH. destruct (existsb (str_eqb y) acc) eqn:E; [exact H|].
  apply NoDup_app; [exact H | repeat constructor; intros [] |].
  intros z Hz [<- | []].
  apply existsb_str_eqb in Hz. congruence.
Qed.

Lemma join_holds (sep x : jsstring) (l : list jsstring) :
  In x l -> exists pre post, join sep l ++ sep = pre ++ x ++ sep ++ post.
Proof.
  induction l as [|y l IH]; [intros []|].
  intros [-> | I].
  - destruct l as [|z l].
    + exists [], []. simpl. now rewrite !app_nil_r.
    + exists [], (join sep (z :: l) ++ sep).
      cbn [join app]. now rewrite <- !app_assoc.
  - destruct l as [|z l]; [destruct I|].
    destruct (IH I) as [pre [post E]].
    exists (y ++ sep ++ pre), post.
    change (join sep (y :: z :: l)) with (y ++ sep ++ join sep (z :: l)).
    rewrite <- !app_assoc, E. reflexivity.
Qed.

Lemma declLine_declarationOf (m : jsstring) :
  declLine m = declarationOf m ++ LF.
Proof.
  unfold declLine, declarationOf.
  generalize (js "  function "), (js "(message: string): void;").
  intros a b. now rewrite <- !app_assoc.
Qed.

Lemma runtimeImpl_implementationOf (m : jsstring) :
  runtimeImpl m = implementationOf m ++ LF.
Proof.
  unfold runtimeImpl, implementationOf.
  generalize (js "(globalThis as any)."),
    (js " = function(_message: string) { /* no-op */ };").
  intros a b. now rewrite <- !app_assoc.
Qed.

(** In the text [createDebugFile] writes, every listed mode has its
    declaration line and its stub line, between the fixed parts. *)
Lemma debugFileContent_lines (modes : list jsstring) (m : jsstring) :
  In m modes ->
  (exists pre post, debugFileContent modes = pre ++ declLine m ++ post) /\
  (exists pre post, debugFileContent modes = pre ++ runtimeImpl m ++ post).
Proof.
  intros I. unfold debugFileContent. cbv zeta.
  generalize debugFileHead, debugFileMiddle, debugFileTail. intros hd md tl.
  split.
  - destruct (@join_holds LF (declarationOf m) (map declarationOf modes))
      as [pre [post E]]; [now apply in_map|].
    exists (hd ++ pre),
      (post ++ md ++ join LF (map implementationOf modes) ++ LF ++ tl).
    rewrite declLine_declarationOf.
    rewrite (app_assoc (join LF (map declarationOf modes)) LF), E.
    now rewrite <- !app_assoc.
  - destruct (@join_holds LF (implementationOf m) (map implementationOf modes))
      as [pre [post E]]; [now apply in_map|].
    exists (hd ++ join LF (map declarationOf modes) ++ LF ++ md ++ pre),
      (post ++ tl).
    rewrite runtimeImpl_implementationOf.
    rewrite (app_assoc (join LF (map implementationOf modes)) LF), E.
    now rewrite <- !app_assoc.
Qed.

Lemma debugFileContent_hasBlock (modes : list jsstring) :
  hasBlock (debugFileContent modes).
Proof.
  assert (H : exists top, debugFileHead = top ++ blockOpening ++ LF).
  { exists (firstn (length debugFileHead - 17) debugFileHead).
    vm_compute. reflexivity. }
  assert (M : exists more, debugFileMiddle = 125%N :: more).
  { exists (skipn 1 debugFileMiddle). vm_compute. reflexivity. }
  destruct H as [top H], M as [more M].
  unfold debugFileContent. cbv zeta. rewrite H, M.
  generalize debugFileTail. intros tl.
  exists top. eexists. split.
  - rewrite <- !app_assoc. reflexivity.
  - do 3 (apply in_or_app; right). simpl. now left.
Qed.

Lemma NoDup_snoc {A} (l : list A) (x : A) :
  NoDup (l ++ [x]) <-> NoDup l /\ ~ In x l.
Proof.
  induction l as [|y l IH]; simpl.
  - split; [intros _; split; [constructor | intros []] |
            intros _; repeat constructor; intros []].
  - rewrite !NoDup_cons_iff, IH, in_app_iff. simpl. intuition congruence.
Qed.

Lemma createDebugFile_declares (modes : list jsstring) (p p' : project) :
  files p debugPath = None ->
  createDebugFile modes p = (Done, p') ->
  files p' debugPath = Some (debugFileContent modes) /\
  hasBlock (debugFileContent modes) /\
  forall m, In m modes ->
    stubbed m (debugFileContent modes) = true /\
    (forallb plainChar m = true -> declared m (debugFileContent modes) = true).
Proof.
  intros F H. split; [|split].
  - unfold createDebugFile in H.
    destruct (srcDir p); [|destruct (permitted p) eqn:P; [|discriminate]];
      cbn [files] in H; rewrite F in H.
    + destruct (permitted p); [|discriminate]. injection H as <-.
      unfold writeFile. cbn [files]. now rewrite str_eqb_refl.
    + cbn [permitted] in H. injection H as <-.
      unfold writeFile. cbn [files]. now rewrite str_eqb_refl.
  - apply debugFileContent_hasBlock.
  - intros m I. destruct (debugFileContent_lines _ _ I) as [[a [b D]] [c [d S]]].
    split.
    + unfold stubbed. apply includes_spec. eauto.
    + intros P. rewrite D. now apply declLine_declares.
Qed.

(** X14: on a project without [src/debug.ts], a [createDebugFile] that ends
    well has written its text there; the text has a [declare global] block,
    a stub line for every listed mode, and a declaration the registry finds
    for every listed mode of plain characters. *)
Theorem scaffold_declares_modes (modes : list jsstring) (p p' : project) :
  files p debugPath = None ->
  createDebugFile modes p = (Done, p') ->
  files p' debugPath = Some (debugFileContent modes) /\
  hasBlock (debugFileContent modes) /\
  forall m, In m modes ->
    stubbed m (debugFileContent modes) = true /\
    (forallb plainChar m = true -> declared m (debugFileContent modes) = true).
Proof. exact (@createDebugFile_declares modes p p'). Qed.

(** X15: [createDebugFile] writes no file but [src/debug.ts], leaves a
    [src/debug.ts] that is there as it is, and leaves every file as it is
    when it fails. *)
Theorem createDebugFile_keeps_files
    (modes : list jsstring) (p p' : project) (r : ending) :
  createDebugFile modes p = (r, p') ->
  (forall q, q <> debugPath -> files p' q = files p q) /\
  (forall c, files p debugPath = Some c -> files p' debugPath = Some c) /\
  (r <> Done -> forall q, files p' q = files p q).
Proof.
  unfold createDebugFile. intros H.
  assert (K : forall p0 : project,
            (files p0 = files p) ->
            match files p0 debugPath with
            | Some _ => (Done, log (js "[vite-mode-logging] src/debug.ts already exists, skipping...") p0)
            | None => if permitted p0
                      then (Done, writeFile debugPath (debugFileContent modes) p0)
                      else (Failed CannotWrite, p0)
            end = (r, p') ->
            (forall q, q <> debugPath -> files p' q = files p q) /\
            (forall c, files p debugPath = Some c -> files p' debugPath = Some c) /\
            (r <> Done -> forall q, files p' q = files p q)).
  { intros p0 E. rewrite <- E. destruct (files p0 debugPath) eqn:F.
    - intros X. injection X as <- <-. cbn [log files]. rewrite F.
      repeat split; auto.
    - destruct (permitted p0); intros X; injection X as <- <-.
      + unfold writeFile. cbn [files]. split; [|split].
        * intros q Q. apply str_eqb_neq in Q. now rewrite Q.
        * discriminate.
        * congruence.
      + repeat split; auto; discriminate. }
  destruct (srcDir p).
  - apply (K p); auto.
  - destruct (permitted p).
    + apply (K (Project (files p) true true (logged p) (warned p))); auto.
    + injection H as <- <-. repeat split; auto.
Qed.

Section SetupFacts.

Variable toUpperCase : jsstring -> jsstring.

Lemma initialModes_in
    (scripts customModes : list jsstring) (includeAll : bool) (m : jsstring) :
  In m (initialModes toUpperCase scripts customModes includeAll) <->
  (exists name,
     (In name scripts /\ ~ In name excludedScripts \/ In name customModes) /\
     m = toUpperCase name) \/
  (includeAll = true /\ m = js "ALL").
Proof.
  assert (K : In m (addAll []
                (map toUpperCase
                   (filter (fun script => negb (existsb (str_eqb script) excludedScripts))
                      scripts) ++ map toUpperCase customModes)) <->
              exists name,
                (In name scripts /\ ~ In name excludedScripts \/ In name customModes) /\
                m = toUpperCase name).
  { rewrite addAll_in, in_app_iff, !in_map_iff. split.
    - intros [[] | [[n [<- I]] | [n [<- I]]]].
      + apply filter_In in I as [I X]. apply negb_true_iff in X.
        exists n. split; [left; split; [exact I|] | reflexivity].
        intros C. apply existsb_str_eqb in C. congruence.
      + exists n. auto.
    - intros [n [[[I X] | I] ->]]; right; [left | right]; exists n;
        (split; [reflexivity|]); [|exact I].
      apply filter_In. split; [exact I|]. apply negb_true_iff.
      destruct (existsb (str_eqb n) excludedScripts) eqn:E; [|reflexivity].
      apply existsb_str_eqb in E. contradiction. }
  unfold initialModes. cbv zeta. destruct includeAll.
  - rewrite in_app_iff, K. simpl. intuition (try discriminate; auto).
  - rewrite K. intuition discriminate.
Qed.

(** X16: the mode list of the set-up holds the upper-cased names of the
    scripts that are not excluded and of the custom modes, [ALL] when asked
    for, and nothing else. *)
Theorem initialModes_members
    (scripts customModes : list jsstring) (includeAll : bool) (m : jsstring) :
  In m (initialModes toUpperCase scripts customModes includeAll) <->
  (exists name,
     (In name scripts /\ ~ In name excludedScripts \/ In name customModes) /\
     m = toUpperCase name) \/
  (includeAll = true /\ m = js "ALL").
Proof. apply initialModes_in. Qed.

(** X17: no mode is listed twice, except [ALL]: it is listed twice exactly when
    [ALL] is asked for and a script or custom mode upper-cases to it. *)
Theorem initialModes_NoDup
    (scripts customModes : list jsstring) (includeAll : bool) :
  NoDup (initialModes toUpperCase scripts customModes false) /\
  (NoDup (initialModes toUpperCase scripts customModes includeAll) <->
   ~ (includeAll = true /\
      In (js "ALL") (initialModes toUpperCase scripts customModes false))).
Proof.
  assert (N : NoDup (initialModes toUpperCase scripts customModes false))
    by (apply addAll_NoDup; constructor).
  split; [exact N|]. destruct includeAll; [|intuition discriminate].
  change (initialModes toUpperCase scripts customModes true)
    with (initialModes toUpperCase scripts customModes false ++ [js "ALL"]).
  rewrite NoDup_snoc. tauto.
Qed.

(** X18: set-up and plugin together: when the set-up, with [ALL] asked for, has
    written [src/debug.ts], starting the plugin in a mode named by a script
    or a custom mode changes nothing. *)
Theorem setup_then_plugin_idle
    (scripts customModes : list jsstring) (mode : jsstring) (p p' : project) :
  files p debugPath = None ->
  createDebugFile (initialModes toUpperCase scripts customModes true) p = (Done, p') ->
  In mode scripts /\ ~ In mode excludedScripts \/ In mode customModes ->
  forallb plainChar (toUpperCase mode) = true ->
  ensureModeFunction toUpperCase mode (worldOf p') = (Returned tt, worldOf p').
Proof.
  intros F H I P.
  destruct (@createDebugFile_declares _ p p' F H) as [E [_ D]].
  rewrite ensureModeFunction_unfold. cbv zeta. rewrite P. cbn [negb].
  unfold artifact, worldOf. cbn [file]. rewrite E.
  destruct (D (toUpperCase mode)) as [_ D1].
  { apply initialModes_in. left. exists mode. auto. }
  destruct (D ALL) as [_ D2].
  { apply initialModes_in. right. auto. }
  rewrite (D1 P), (D2 plain_ALL). reflexivity.
Qed.

(** X19: after a set-up that has written [src/debug.ts], for whatever
    mode list, starting the plugin twice in a mode whose upper-cased name
    has plain characters only leaves the artifact as starting it once
    does. *)
Theorem scaffolded_registration_idempotent
    (modes : list jsstring) (mode : jsstring) (p p' : project) (w1 : world) :
  forallb plainChar (toUpperCase mode) = true ->
  files p debugPath = None ->
  createDebugFile modes p = (Done, p') ->
  ensureModeFunction toUpperCase mode (worldOf p') = (Returned tt, w1) ->
  ensureModeFunction toUpperCase mode w1 = (Returned tt, w1).
Proof.
  intros _ F H E.
  destruct (@createDebugFile_declares _ p p' F H) as [S [B _]].
  apply (@second_call_idle_once_ALL_declared toUpperCase mode (worldOf p') w1 E).
  apply (@returned_call_declares_ALL toUpperCase mode (worldOf p') w1 E).
  right. left. unfold artifact, worldOf. cbn [file]. now rewrite S.
Qed.

End SetupFacts.

(** *** The main entry file *)

Lemma splitOn_nonempty (c : N) (s : jsstring) : splitOn c s <> [].
Proof.
  destruct s as [|x s]; simpl; [discriminate|].
  destruct (N.eqb x c); [discriminate|].
  destruct (splitOn c s); discriminate.
Qed.


Lemma join_has (sep x : jsstring) (l : list jsstring) :
  In x l -> exists pre post, join sep l = pre ++ x ++ post.
Proof.
  intros I. destruct (join_holds sep _ _ I) as [pre [post E]].
  destruct l as [|y l]; [destruct I|].
  clear E. revert y I. induction l as [|z l IH]; intros y I.
  - destruct I as [-> | []]. exists [], []. simpl. now rewrite app_nil_r.
  - change (join sep (y :: z :: l)) with (y ++ sep ++ join sep (z :: l)).
    destruct I as [-> | I].
    + exists [], (sep ++ join sep (z :: l)). reflexivity.
    + destruct (IH z I) as [a [b ->]].
      exists (y ++ sep ++ a), b. now rewrite <- !app_assoc.
Qed.



Lemma find_same {A} (f g : A -> bool) (l : list A) :
  (forall x, In x l -> f x = g x) -> find f l = find g l.
Proof.
  induction l as [|x l IH]; intros H; simpl; [reflexivity|].
  rewrite <- (H x) by now left. destruct (f x); [reflexivity|].
  apply IH. intros y I. apply H. now right.
Qed.

Lemma importLine_imports (pre post : jsstring) :
  importsDebug (pre ++ importLine ++ post) = true.
Proof.
  unfold importsDebug. apply orb_true_iff. left. apply includes_spec.
  exists pre, (js " // Load global logging functions" ++ post).
  reflexivity.
Qed.


(** X21: running [updateMainFile] again, after a run that ended well, changes
    no file. *)
Theorem main_file_second_run_idle (p p1 : project) :
  updateMainFile p = (Done, p1) ->
  fst (updateMainFile p1) = Done /\
  forall q, files (snd (updateMainFile p1)) q = files p1 q.
Proof.
  unfold updateMainFile at 1.
  destruct (find (fun f => isSome (files p f)) possibleMainFiles)
    as [f|] eqn:Fd.
  - destruct (files p f) as [content|] eqn:Fc.
    + destruct (importsDebug content) eqn:Im.
      * intros H. injection H as <-. unfold updateMainFile. cbn [log files].
        rewrite Fd, Fc, Im. auto.
      * cbv zeta. destruct (permitted p); [|discriminate].
        intros H. injection H as <-.
        set (text := join LF (spliceIn (scanImports 0 0 (splitOn 10 content))
                                importLine (splitOn 10 content))).
        set (p1 := writeFile f text p).
        assert (Fc1 : files p1 f = Some text).
        { unfold p1, writeFile. cbn [files]. now rewrite str_eqb_refl. }
        assert (Fd1 : find (fun g => isSome (files p1 g)) possibleMainFiles
                      = Some f).
        { rewrite <- Fd. apply find_same. intros x _.
          unfold p1, writeFile. cbn [files].
          destruct (str_eqb x f) eqn:X; [|reflexivity].
          apply str_eqb_eq in X. subst x. now rewrite Fc. }
        assert (Im1 : importsDebug text = true).
        { unfold text.
          destruct (@join_has LF importLine
                      (spliceIn (scanImports 0 0 (splitOn 10 content))
                         importLine (splitOn 10 content))) as [a [b ->]].
          - unfold spliceIn. apply in_elt.
          - apply importLine_imports. }
        unfold updateMainFile. rewrite Fd1, Fc1, Im1. auto.
    + intros H. injection H as <-. unfold updateMainFile. rewrite Fd, Fc. auto.
  - intros H. injection H as <-. unfold updateMainFile. cbn [warn files].
    rewrite Fd. auto.
Qed.

(** ** Further facts: the command line *)

Lemma dropSpace_head (s : jsstring) (x : N) (r : jsstring) :
  dropSpace s = x :: r -> isSpace x = false.
Proof.
  induction s as [|y s IH]; simpl; [discriminate|].
  destruct (isSpace y) eqn:Y; [exact IH|].
  intros H. injection H as <- _. exact Y.
Qed.

Lemma dropSpace_suffix (s : jsstring) : exists a, s = a ++ dropSpace s.
Proof.
  induction s as [|y s [a IH]]; simpl; [now exists []|].
  destruct (isSpace y).
  - exists (y :: a). simpl. now rewrite <- IH.
  - now exists [].
Qed.

Lemma dropSpace_fixed (s : jsstring) :
  match s with x :: _ => isSpace x = false | [] => True end ->
  dropSpace s = s.
Proof. destruct s as [|x s]; simpl; [auto|]. now intros ->. Qed.

Lemma dropSpace_idem (s : jsstring) : dropSpace (dropSpace s) = dropSpace s.
Proof.
  apply dropSpace_fixed. destruct (dropSpace s) as [|x r] eqn:E; [exact I|].
  now apply dropSpace_head in E.
Qed.

Lemma trim_idem (s : jsstring) : trim (trim s) = trim s.
Proof.
  unfold trim. set (t := dropSpace s). set (v := dropSpace (rev t)).
  assert (A : dropSpace (rev v) = rev v).
  { apply dropSpace_fixed. destruct (rev v) as [|y r] eqn:E; [exact I|].
    destruct (dropSpace_suffix (rev t)) as [a Ea]. fold v in Ea.
    apply (f_equal (@rev N)) in Ea.
    rewrite rev_involutive, rev_app_distr, E in Ea.
    apply (@dropSpace_head s y (r ++ rev a)). exact Ea. }
  rewrite A, rev_involutive. unfold v. now rewrite dropSpace_idem.
Qed.

Lemma dropSpace_in (s : jsstring) (x : N) : In x (dropSpace s) -> In x s.
Proof.
  destruct (dropSpace_suffix s) as [a E]. intros H. rewrite E.
  apply in_or_app. now right.
Qed.

Lemma trim_in (s : jsstring) (x : N) : In x (trim s) -> In x s.
Proof.
  unfold trim. intros H. apply in_rev in H. apply dropSpace_in in H.
  apply in_rev in H. now apply dropSpace_in in H.
Qed.

Lemma splitOn_pieces (c : N) (s piece : jsstring) :
  In piece (splitOn c s) -> ~ In c piece.
Proof.
  revert piece. induction s as [|x s IH]; simpl; intros piece.
  - intros [<- | []] [].
  - destruct (N.eqb x c) eqn:X.
    + intros [<- | H]; [intros [] | now apply IH].
    + destruct (splitOn c s) as [|q qs]; simpl.
      * intros [<- | []] [C | []]. subst. now rewrite N.eqb_refl in X.
      * intros [<- | H].
        -- intros [C | C]; [subst; now rewrite N.eqb_refl in X|].
           apply (IH q); simpl; auto.
        -- apply IH. simpl. auto.
Qed.

(** The options the loop can build: [verbose] is never set to false,
    [includeAll] never to true, and a custom mode list is not empty and
    holds trimmed texts without a comma. *)
Lemma parseArgs_keeps (n : nat) : forall (args : list jsstring) (o r : options),
  length args <= n ->
  (verbose o <> Some false /\ includeAll o <> Some true /\
   forall l, customModes o = Some l ->
     l <> [] /\ forall m, In m l -> trim m = m /\ ~ In 44%N m) ->
  parseArgs args o = Run r \/ parseArgs args o = HelpShown r ->
  verbose r <> Some false /\ includeAll r <> Some true /\
  forall l, customModes r = Some l ->
    l <> [] /\ forall m, In m l -> trim m = m /\ ~ In 44%N m.
Proof.
  induction n as [|n IH]; intros args o r L W H.
  - destruct args; [|simpl in L; lia]. simpl in H.
    destruct H as [H | H]; [injection H as <-; exact W | discriminate].
  - destruct args as [|a rest].
    { simpl in H. destruct H as [H | H]; [injection H as <-; exact W | discriminate]. }
    simpl in L. cbn [parseArgs] in H. destruct W as [W1 [W2 W3]].
    destruct (str_eqb a (js "--verbose") || str_eqb a (js "-v")).
    { eapply IH in H; [exact H | lia |]. cbn.
      split; [discriminate || exact W1|]. split; [discriminate || exact W2|].
      exact W3. }
    destruct (str_eqb a (js "--no-all")).
    { eapply IH in H; [exact H | lia |]. cbn.
      split; [discriminate || exact W1|]. split; [discriminate || exact W2|].
      exact W3. }
    destruct (str_eqb a (js "--custom-modes")).
    { destruct rest as [|x rest'].
      - destruct H as [H | H]; [injection H as <-; auto | discriminate].
      - eapply IH in H; [exact H | simpl in L; lia |]. cbn.
        split; [exact W1|]. split; [exact W2|].
        intros l E. injection E as <-. split.
        + pose proof (@splitOn_nonempty 44%N x).
          destruct (splitOn 44 x); [contradiction | discriminate].
        + intros m I. apply in_map_iff in I as [piece [<- I]].
          split; [apply trim_idem|].
          intros C. apply trim_in in C. exact (@splitOn_pieces 44%N x piece I C). }
    destruct (str_eqb a (js "--help") || str_eqb a (js "-h")).
    { destruct H as [H | H]; [discriminate | injection H as <-; auto]. }
    apply (IH rest o r); [lia | auto | exact H].
Qed.

(** X22: arguments that are no option names are passed over: the loop
    ends with the options as they were. *)
Theorem unknown_arguments_ignored (args : list jsstring) (o : options) :
  (forall a, In a args -> ~ In a optionNames) ->
  parseArgs args o = Run o.
Proof.
  induction args as [|a rest IH]; intros H; [reflexivity|].
  assert (K : forall x, In x optionNames -> str_eqb a x = false).
  { intros x I. apply str_eqb_neq. intros ->. apply (H x); simpl; auto. }
  cbn [parseArgs].
  rewrite !K by (unfold optionNames; simpl; auto 7).
  cbn [orb]. apply IH. intros x I. apply H. now right.
Qed.

(** X23: whatever the arguments, the command line never turns [verbose]
    off nor [includeAll] on, and a custom mode list it sets is not empty
    and holds trimmed texts without a comma. *)
Theorem parsed_options_invariant (args : list jsstring) (o : options) :
  parseArgs args noOptions = Run o ->
  verbose o <> Some false /\ includeAll o <> Some true /\
  forall l, customModes o = Some l ->
    l <> [] /\ forall m, In m l -> trim m = m /\ ~ In 44%N m.
Proof.
  intros H.
  apply (@parseArgs_keeps (length args) args noOptions o); auto.
  cbn. repeat split; discriminate.
Qed.

(** ** The further facts at concrete inputs *)




Lemma second_call_idle_witness :
  ensureModeFunction asciiUpperCase (js "dev")
    (snd (ensureModeFunction asciiUpperCase (js "dev") (World None true [] []))) =
  (Returned tt,
   snd (ensureModeFunction asciiUpperCase (js "dev") (World None true [] []))).
Proof.
  apply (@second_call_idle asciiUpperCase (js "dev") (World None true [] [])).
  - vm_compute. reflexivity.
  - vm_compute. reflexivity.
  - left. vm_compute. reflexivity.
Defined.

Lemma declared_iff_declaration_text_witness :
  declared (js "DEV") (js "function DEV(") = true <->
  exists p w q, js "function DEV(" = p ++ w ++ q /\ declarationText (js "DEV") w.
Proof.
  apply (@declared_iff_declaration_text (js "DEV") (js "function DEV(")).
  vm_compute. reflexivity.
Defined.


Lemma writable_call_returns_witness :
  exists w', ensureModeFunction asciiUpperCase (js "dev") (World None true [] []) =
             (Returned tt, w').
Proof.
  apply (@writable_call_returns asciiUpperCase (js "dev") (World None true [] []));
    vm_compute; reflexivity.
Defined.



Lemma supported_file_is_rewritten_witness :
  transform asciiUpperCase (js "dev") (js "DEV(1)") (js "src/app.ts") =
  Some (js "console.log(1)").
Proof.
  rewrite (@supported_file_is_rewritten asciiUpperCase (js "dev") (js "DEV(1)")
             (js "src/app.ts")).
  - vm_compute. reflexivity.
  - exists (js "src/app"), (js ".ts"). split; [left; reflexivity | reflexivity].
  - intros [pre [post E]].
    assert (I : includes (js "src/app.ts") (js "debug.ts") = true)
      by (apply includes_spec; exists pre, post; exact E).
    vm_compute in I. discriminate I.
Defined.

Lemma scaffold_declares_modes_witness :
  declared (js "DEV") (debugFileContent [js "DEV"; js "ALL"]) = true.
Proof.
  destruct (@scaffold_declares_modes [js "DEV"; js "ALL"] emptyProject
              (snd (createDebugFile [js "DEV"; js "ALL"] emptyProject)))
    as [_ [_ K]].
  - reflexivity.
  - vm_compute. reflexivity.
  - apply K; [left; reflexivity | vm_compute; reflexivity].
Defined.

Lemma createDebugFile_keeps_files_witness :
  files (snd (createDebugFile [js "DEV"] smallProject)) (js "src/main.ts") =
  Some smallMain.
Proof.
  rewrite (proj1 (@createDebugFile_keeps_files [js "DEV"] smallProject
                    (snd (createDebugFile [js "DEV"] smallProject))
                    (fst (createDebugFile [js "DEV"] smallProject))
                    (surjective_pairing _))
             (js "src/main.ts")).
  - reflexivity.
  - intros E. vm_compute in E. discriminate E.
Defined.

Lemma setup_then_plugin_idle_witness :
  ensureModeFunction asciiUpperCase (js "dev")
    (worldOf (snd (createDebugFile
                     (initialModes asciiUpperCase [js "dev"; js "build"] [] true)
                     emptyProject))) =
  (Returned tt,
   worldOf (snd (createDebugFile
                   (initialModes asciiUpperCase [js "dev"; js "build"] [] true)
                   emptyProject))).
Proof.
  apply (@setup_then_plugin_idle asciiUpperCase [js "dev"; js "build"] []
           (js "dev") emptyProject).
  - reflexivity.
  - vm_compute. reflexivity.
  - left. split; [left; reflexivity|].
    intros C. vm_compute in C.
    repeat (destruct C as [C | C]; [discriminate C|]). exact C.
  - vm_compute. reflexivity.
Defined.

Lemma scaffolded_registration_idempotent_witness :
  ensureModeFunction asciiUpperCase (js "debug")
    (snd (ensureModeFunction asciiUpperCase (js "debug")
            (worldOf (snd (createDebugFile [js "DEV"] emptyProject))))) =
  (Returned tt,
   snd (ensureModeFunction asciiUpperCase (js "debug")
          (worldOf (snd (createDebugFile [js "DEV"] emptyProject))))).
Proof.
  apply (@scaffolded_registration_idempotent asciiUpperCase [js "DEV"]
           (js "debug") emptyProject
           (snd (createDebugFile [js "DEV"] emptyProject))).
  - vm_compute. reflexivity.
  - reflexivity.
  - vm_compute. reflexivity.
  - vm_compute. reflexivity.
Defined.


Lemma main_file_second_run_idle_witness :
  fst (updateMainFile (snd (updateMainFile smallProject))) = Done.
Proof.
  apply (@main_file_second_run_idle smallProject
           (snd (updateMainFile smallProject))).
  vm_compute. reflexivity.
Defined.

Lemma unknown_arguments_ignored_witness :
  parseArgs [js "--quiet"; js "dev"] noOptions = Run noOptions.
Proof.
  apply (@unknown_arguments_ignored [js "--quiet"; js "dev"] noOptions).
  intros a [<- | [<- | []]] C; vm_compute in C;
    repeat (destruct C as [C | C]; [discriminate C|]); exact C.
Defined.

Lemma parsed_options_invariant_witness :
  Some true <> Some false /\ @None bool <> Some true /\
  forall l,
    Some [js "staging"; js "testing"] = Some l ->
    l <> [] /\ forall m, In m l -> trim m = m /\ ~ In 44%N m.
Proof.
  apply (@parsed_options_invariant
           [js "--custom-modes"; js "staging, testing"; js "-v"]
           (Options (Some [js "staging"; js "testing"]) None (Some true))).
  vm_compute. reflexivity.
Defined.
